(** * Homomorphic Eigenfaces: the numeric engine and its oracles

    A shallow embedding of [homomorphic_eigenfaces_module.py]: the
    computation engine [EigenfacesServer] and the key holder
    [EigenfacesClient].

    Numbers.  A scalar of the program is either a plaintext number or a CKKS
    ciphertext.  Both are modelled by the exact rational they stand for
    ([Qc], canonical rationals, so that equal numbers are equal terms); the
    tag records which of the two the Python object is, because the code
    branches on [type(a) is CKKSVector].  The rounding of the host's binary
    floating point numbers and the noise of the encryption scheme are not
    part of the model.  The reciprocal [1 / x] of a zero raises
    [ZeroDivisionError], as it does on Python's own numbers.

    Effects.  The server calls back into the key holder through the five
    functions given to its initializer.  A numeric method of the server
    threads the list of oracle calls made so far and may raise a Python
    exception.  [Train] and [Classify] also read and assign the attributes
    of the server object, and [Train] works on the array object the caller
    passes: arrays that are passed by reference live in a store. *)

From Stdlib Require Import List Arith ZArith QArith Qcanon Qreals Reals Lia Lra Bool.
Import ListNotations.

Set Implicit Arguments.
Open Scope Qc_scope.

(** ** Python values *)

Inductive exn : Type :=
| ZeroDivisionError
| IndexError
| ValueError
| TypeError
| AttributeError.

Inductive res (A : Type) : Type :=
| Ok (a : A)
| Err (e : exn).

Arguments Ok {A} a.
Arguments Err {A} e.

(** A scalar: a plaintext number or a ciphertext of the number it hides. *)
Inductive num : Type :=
| Plain (x : Qc)
| Enc (x : Qc).

Definition val (a : num) : Qc :=
  match a with Plain x => x | Enc x => x end.

Definition is_ckks (a : num) : bool :=
  match a with Plain _ => false | Enc _ => true end.

(** [a + b] and [a * b]: the result is a ciphertext as soon as one operand is. *)
Definition retag (a b : num) (x : Qc) : num :=
  if is_ckks a || is_ckks b then Enc x else Plain x.

Definition nadd (a b : num) : num := retag a b (val a + val b).
Definition nmul (a b : num) : num := retag a b (val a * val b).

Definition vector := list num.
Definition matrix := list (list num).

Definition of_nat (n : nat) : Qc := Q2Qc (inject_Z (Z.of_nat n)).
Definition one : num := Plain 1.
Definition minus_one : num := Plain (- (1)).
Definition half : num := Plain (Q2Qc (1 # 2)).

(** ** Oracle calls and the computation monad *)

Inductive event : Type :=
| EvSeed (b : num)
| EvReencrypt (A : matrix)
| EvReencryptVec (V : vector)
| EvComponents (L : vector)
| EvDistance (D : vector).

Definition trace := list event.

(** A computation over a state [St] that may raise; the state reached so far
    survives the exception. *)
Definition Comp (St A : Type) : Type := St -> St * res A.

Definition ret {St A} (a : A) : Comp St A := fun t => (t, Ok a).
Definition raise {St A} (e : exn) : Comp St A := fun t => (t, Err e).
Definition bind {St A B} (m : Comp St A) (k : A -> Comp St B) : Comp St B :=
  fun t => match m t with
           | (t', Ok a) => k a t'
           | (t', Err e) => (t', Err e)
           end.
Definition lift {St A} (r : res A) : Comp St A := fun t => (t, r).

Declare Scope comp_scope.
Delimit Scope comp_scope with comp.
Notation "x <- m ;; k" := (bind m (fun x => k))
  (at level 61, m at next level, right associativity) : comp_scope.
Open Scope comp_scope.

(** The server's numeric engine only talks to the oracles. *)
Definition M (A : Type) : Type := Comp trace A.

(** [call ev r]: an oracle is invoked (the call is recorded), then its answer
    or its exception comes back. *)
Definition call {A} (ev : event) (r : res A) : M A :=
  fun t => (t ++ [ev], r).

(** [for i in range(n)] over the variables the loop assigns. *)
Fixpoint for_range {St V} (n : nat) (body : nat -> V -> Comp St V) (i : nat) (v : V)
  : Comp St V :=
  match n with
  | O => ret v
  | S n' => v' <- body i v ;; for_range n' body (S i) v'
  end.

(** [l = []; for i in range(n): l.append(f(i))] *)
Definition collect {St A} (n : nat) (f : nat -> Comp St A) : Comp St (list A) :=
  for_range n (fun i acc => x <- f i ;; ret (acc ++ [x])) 0 [].

(** [l = []; for x in xs: l.append(f(x))] *)
Fixpoint for_each {St A B} (xs : list A) (f : A -> Comp St B) : Comp St (list B) :=
  match xs with
  | [] => ret []
  | x :: xs' => y <- f x ;; ys <- for_each xs' f ;; ret (y :: ys)
  end.

(** Indexing [l[i]] with a non-negative index. *)
Definition getitem {St A} (l : list A) (i : nat) : Comp St A :=
  match nth_error l i with
  | Some a => ret a
  | None => raise IndexError
  end.

(** ** NumPy on lists *)

(** [np.sum(l)] of a one-dimensional sequence; the sum of nothing is [0.0]. *)
Definition np_sum (l : vector) : num := fold_left nadd l (Plain 0).

(** [np.ones((n))] *)
Definition np_ones (n : nat) : vector := repeat one n.

(** [x * V] for a number [x] and an array [V]. *)
Definition np_scale (x : num) (V : vector) : vector := map (nmul x) V.

(** Broadcasting a one-dimensional array to length [n]: it has that length, or
    length one. *)
Definition broadcast_to {A} (n : nat) (l : list A) : res (list A) :=
  if Nat.eqb (length l) n then Ok l
  else match l with
       | [a] => Ok (repeat a n)
       | _ => Err ValueError
       end.

Definition broadcast_len (n m : nat) : res nat :=
  if Nat.eqb n m then Ok n
  else if Nat.eqb n 1 then Ok m
  else if Nat.eqb m 1 then Ok n
  else Err ValueError.

Fixpoint zip_with {A B C} (f : A -> B -> C) (u : list A) (v : list B) : list C :=
  match u, v with
  | a :: u', b :: v' => f a b :: zip_with f u' v'
  | _, _ => []
  end.

(** [u + v] and [u * v] on one-dimensional arrays (a list operand is converted). *)
Definition np_binop (f : num -> num -> num) (u v : vector) : res vector :=
  match broadcast_len (length u) (length v) with
  | Err e => Err e
  | Ok n =>
      match broadcast_to n u, broadcast_to n v with
      | Ok u', Ok v' => Ok (zip_with f u' v')
      | Err e, _ => Err e
      | _, Err e => Err e
      end
  end.

Definition np_add : vector -> vector -> res vector := np_binop nadd.
Definition np_mul : vector -> vector -> res vector := np_binop nmul.

(** A rectangular list of rows is a two-dimensional array. *)
Definition rectangular (X : matrix) : bool :=
  match X with
  | [] => true
  | r :: rs => forallb (fun r' => Nat.eqb (length r') (length r)) rs
  end.

(** [[n, d] = np.shape(X)]: the unpacking needs two dimensions. *)
Definition np_shape2 (X : matrix) : res (nat * nat) :=
  match X with
  | [] => Err ValueError
  | r :: _ => if rectangular X then Ok (length X, length r) else Err ValueError
  end.

(** [np.sum(X, axis = 0)]: the sum of the rows.  Of no rows at all NumPy
    returns the scalar [0.0]; the only caller has divided by the row count
    [0] before indexing it, so it is rendered as the empty vector. *)
Definition np_sum_axis0 (X : matrix) : res vector :=
  match X with
  | [] => Ok []
  | r :: rs => if rectangular X then Ok (fold_left (zip_with nadd) rs r)
               else Err ValueError
  end.

(** [X.T] of a two-dimensional array. *)
Fixpoint transpose (X : matrix) : matrix :=
  match X with
  | [] => []
  | [r] => map (fun a => [a]) r
  | r :: rs => zip_with cons r (transpose rs)
  end.

(** A loop over a list that stops at the first exception. *)
Fixpoint mapM_res {A B} (f : A -> res B) (l : list A) : res (list B) :=
  match l with
  | [] => Ok []
  | a :: l' =>
      match f a with
      | Err e => Err e
      | Ok b => match mapM_res f l' with
                | Err e => Err e
                | Ok bs => Ok (b :: bs)
                end
      end
  end.

(** [X += V] broadcasts the vector over the rows; the shape of [X] stays. *)
Definition np_iadd_rows (X : matrix) (V : vector) : res matrix :=
  mapM_res (fun row => match broadcast_to (length row) V with
                      | Ok V' => Ok (zip_with nadd row V')
                      | Err e => Err e
                      end) X.

(** [C += T] for two-dimensional arrays: [T] is broadcast to the shape of [C]. *)
Definition np_iadd_mat (C T : matrix) : res matrix :=
  match broadcast_to (length C) T with
  | Err e => Err e
  | Ok T' =>
      mapM_res (fun '(rc, rt) => match broadcast_to (length rc) rt with
                                 | Ok rt' => Ok (zip_with nadd rc rt')
                                 | Err e => Err e
                                 end) (combine C T')
  end.

(** [W[:, i]] *)
Definition column (W : matrix) (i : nat) : res vector :=
  mapM_res (fun row => match nth_error row i with
                       | Some a => Ok a
                       | None => Err IndexError
                       end) W.

Fixpoint set_nth {A} (l : list A) (i : nat) (a : A) : list A :=
  match l, i with
  | [], _ => []
  | _ :: l', O => a :: l'
  | b :: l', S i' => b :: set_nth l' i' a
  end.

(** [W[:, i] = V] *)
Definition set_column (W : matrix) (i : nat) (V : vector) : res matrix :=
  match broadcast_to (length W) V with
  | Err e => Err e
  | Ok V' =>
      mapM_res (fun '(row, a) => if Nat.ltb i (length row) then Ok (set_nth row i a)
                                 else Err IndexError) (combine W V')
  end.

(** ** The injected client functions *)

Record Oracles : Type := {
  determine_components : vector -> res (option nat);
  distance_comparison : vector -> res nat;
  goldschmidt_initializer : num -> res num;
  reencrypt : matrix -> res matrix;
  reencrypt_vec : vector -> res vector
}.

(** ** The server object and the caller's arrays *)

(** The attributes of an [EigenfacesServer] object; an attribute that was
    never assigned is [None] here and raises [AttributeError] when read. *)
Record model : Type := {
  is_trained : bool;
  eigenfaces : option matrix;
  mean_face : option vector;
  projected_training_images : option (list vector)
}.

(** Arrays are objects: the caller and the callee hold a reference to the
    same cell. *)
Definition loc := nat.

Record world : Type := {
  obj : model;
  heap : list matrix;
  calls : trace
}.

Definition W (A : Type) : Type := Comp world A.

(** A numeric method runs against the oracle trace and touches nothing else. *)
Definition engine {A} (m : M A) : W A :=
  fun w => let (t, r) := m (calls w) in
           ({| obj := obj w; heap := heap w; calls := t |}, r).

Definition getattr {A} (field : model -> option A) : W A :=
  fun w => match field (obj w) with
           | Some a => (w, Ok a)
           | None => (w, Err AttributeError)
           end.

Definition setattr (update : model -> model) : W unit :=
  fun w => ({| obj := update (obj w); heap := heap w; calls := calls w |}, Ok tt).

(** Reading through a reference; a reference always points to a live array,
    the error case is there for totality only. *)
Definition load (l : loc) : W matrix :=
  fun w => match nth_error (heap w) l with
           | Some X => (w, Ok X)
           | None => (w, Err TypeError)
           end.

Definition store (l : loc) (X : matrix) : W unit :=
  fun w => ({| obj := obj w; heap := set_nth (heap w) l X; calls := calls w |}, Ok tt).

Definition set_mean_face (v : vector) (m : model) : model :=
  {| is_trained := is_trained m; eigenfaces := eigenfaces m;
     mean_face := Some v;
     projected_training_images := projected_training_images m |}.

Definition set_eigenfaces (e : matrix) (m : model) : model :=
  {| is_trained := is_trained m; eigenfaces := Some e;
     mean_face := mean_face m;
     projected_training_images := projected_training_images m |}.

Definition set_projected_training_images (p : list vector) (m : model) : model :=
  {| is_trained := is_trained m; eigenfaces := eigenfaces m;
     mean_face := mean_face m;
     projected_training_images := Some p |}.

Definition set_is_trained (b : bool) (m : model) : model :=
  {| is_trained := b; eigenfaces := eigenfaces m;
     mean_face := mean_face m;
     projected_training_images := projected_training_images m |}.

(** ** The key holder *)

Module EigenfacesClient.

(** [_encrypt_vec]: every plaintext entry becomes a ciphertext. *)
Definition _encrypt_vec (V : list Qc) : vector := map Enc V.

(** [Encrypt] *)
Definition Encrypt (mat : list (list Qc)) : matrix := map _encrypt_vec mat.

(** [_decrypt_vec]: [V[i].decrypt()] exists on ciphertexts only. *)
Definition _decrypt_vec (V : vector) : res (list Qc) :=
  mapM_res (fun a => match a with
                     | Enc q => Ok q
                     | Plain _ => Err AttributeError
                     end) V.

(** [Decrypt] *)
Definition Decrypt (A : matrix) : res (list (list Qc)) :=
  mapM_res _decrypt_vec A.

(** [_reencrypt_vec] *)
Definition _reencrypt_vec (V : vector) : res vector :=
  match _decrypt_vec V with
  | Ok dec_vec => Ok (_encrypt_vec dec_vec)
  | Err e => Err e
  end.

(** [_reencrypt_mat] *)
Definition _reencrypt_mat (A : matrix) : res matrix :=
  match Decrypt A with
  | Ok dec_mat => Ok (Encrypt dec_mat)
  | Err e => Err e
  end.

(** [np.cumsum] *)
Fixpoint cumsum_from (acc : Qc) (l : list Qc) : list Qc :=
  match l with
  | [] => []
  | x :: l' => (acc + x) :: cumsum_from (acc + x) l'
  end.
Definition np_cumsum (l : list Qc) : list Qc := cumsum_from 0 l.

Definition sum_Qc (l : list Qc) : Qc := fold_left Qcplus l 0.

Definition Qcltb (x y : Qc) : bool :=
  if Qclt_le_dec x y then true else false.

(** [c / s > v] on NumPy's floating point numbers: a division by zero gives
    an infinity of the sign of [c], or not-a-number for [0 / 0], which
    compares false. *)
Definition share_exceeds (c s v : Qc) : bool :=
  if Qc_eq_dec s 0 then Qcltb 0 c else Qcltb v (c / s).

(** The variance threshold. *)
Definition v_threshold : Qc := Q2Qc (99 # 100).

(** The loop of [_n_components_comparison]: the first [i] whose cumulative
    share exceeds [v]; Python's [None] when the loop ends without a
    [return]. *)
Fixpoint first_exceeding (i : nat) (cs : list Qc) (s : Qc) : option nat :=
  match cs with
  | [] => None
  | c :: cs' => if share_exceeds c s v_threshold then Some i
                else first_exceeding (S i) cs' s
  end.

(** [_n_components_comparison] *)
Definition _n_components_comparison (Lambdas : vector) : res (option nat) :=
  match _decrypt_vec Lambdas with
  | Err e => Err e
  | Ok Lambdas => Ok (first_exceeding 0 (np_cumsum Lambdas) (sum_Qc Lambdas))
  end.

(** [np.argmin]: the first position of the least entry. *)
Fixpoint argmin_from (best : Qc) (besti i : nat) (l : list Qc) : nat :=
  match l with
  | [] => besti
  | x :: l' => if Qcltb x best then argmin_from x i (S i) l'
               else argmin_from best besti (S i) l'
  end.

Definition np_argmin (D : list Qc) : res nat :=
  match D with
  | [] => Err ValueError
  | x :: D' => Ok (argmin_from x 0 1 D')
  end.

(** [_distance_comparison] *)
Definition _distance_comparison (D : vector) : res nat :=
  match _decrypt_vec D with
  | Err e => Err e
  | Ok D => np_argmin D
  end.

(** [_goldschmidt_initializer]: [1 / x], through decryption for a
    ciphertext.  The decrypted entry is a Python float, and so is a
    plaintext scalar here: the reciprocal of zero raises.  (On a NumPy
    scalar the host would warn and continue with an infinity instead.) *)
Definition _goldschmidt_initializer (x : num) : res num :=
  match x with
  | Enc q => if Qc_eq_dec q 0 then Err ZeroDivisionError else Ok (Enc (1 / q))
  | Plain q => if Qc_eq_dec q 0 then Err ZeroDivisionError else Ok (Plain (1 / q))
  end.

(** The functions handed to the server's initializer. *)
Definition oracles : Oracles :=
  {| determine_components := _n_components_comparison;
     distance_comparison := _distance_comparison;
     goldschmidt_initializer := _goldschmidt_initializer;
     reencrypt := _reencrypt_mat;
     reencrypt_vec := _reencrypt_vec |}.

End EigenfacesClient.

(** ** The computation engine *)

Module EigenfacesServer.
Section Engine.

(** The five functions stored by [__init__]. *)
Variable self : Oracles.

(** [_goldschmidt_division(a, b)] *)
Definition _goldschmidt_division (a b : num) : M num :=
  let no_iterations := 1%nat in
  r <- call (EvSeed b) (goldschmidt_initializer self b) ;;
  a <- for_range no_iterations (fun _ a => ret (nmul r a)) 0 a ;;
  if is_ckks a then
    l <- call (EvReencryptVec [a]) (reencrypt_vec self [a]) ;;
    getitem l 0
  else ret a.

(** [_goldschmidt_vector_division(A, b)] *)
Definition _goldschmidt_vector_division (A : vector) (b : num) : M vector :=
  let n := length A in
  collect n (fun i => Ai <- getitem A i ;; _goldschmidt_division Ai b).

(** [_newton_sqrt(x0)] *)
Definition _newton_sqrt (x0 : num) : M num :=
  let no_iterations := 30%nat in
  let a := x0 in
  for_range no_iterations
    (fun _ x0 =>
       q <- _goldschmidt_division a x0 ;;
       let x0 := nmul half (nadd x0 q) in
       if is_ckks a then
         l <- call (EvReencryptVec [x0]) (reencrypt_vec self [x0]) ;;
         getitem l 0
       else ret x0)
    0 x0.

(** [_norm(X)] *)
Definition _norm (X : vector) : M num :=
  let vector_norm := Plain 0 in
  let n := length X in
  vector_norm <- for_range n
    (fun i vector_norm => Xi <- getitem X i ;; ret (nadd vector_norm (nmul Xi Xi)))
    0 vector_norm ;;
  _newton_sqrt vector_norm.

(** [_vector_mean(X)] *)
Definition _vector_mean (X : matrix) : M vector :=
  __sum <- lift (np_sum_axis0 X) ;;
  let n := length X in
  dividend <- _goldschmidt_division one (Plain (of_nat n)) ;;
  X0 <- getitem X 0 ;;
  let m := length X0 in
  collect m (fun i => si <- getitem __sum i ;; ret (nmul si dividend)).

(** [_matrix_mult(A, B)] *)
Definition _matrix_mult (A B : matrix) : M matrix :=
  let rows_a := length A in
  let rows_b := length B in
  B0 <- getitem B 0 ;;
  let cols_b := length B0 in
  temp_prod_2 <- collect rows_a (fun i =>
    collect cols_b (fun j =>
      temp_prod_4 <- collect rows_b (fun k =>
        Ai <- getitem A i ;; Aik <- getitem Ai k ;;
        Bk <- getitem B k ;; Bkj <- getitem Bk j ;;
        ret (nmul Aik Bkj)) ;;
      ret (np_sum temp_prod_4))) ;;
  call (EvReencrypt temp_prod_2) (reencrypt self temp_prod_2).

(** [_mat_vec_mult(M, V)] *)
Definition _mat_vec_mult (A : matrix) (V : vector) : M vector :=
  let rows_M := length A in
  A0 <- getitem A 0 ;;
  let cols_M := length A0 in
  temp_prod_2 <- collect rows_M (fun i =>
    temp_prod_3 <- collect cols_M (fun j =>
      Ai <- getitem A i ;; Aij <- getitem Ai j ;;
      Vj <- getitem V j ;;
      ret (nmul Aij Vj)) ;;
    ret (np_sum temp_prod_3)) ;;
  call (EvReencryptVec temp_prod_2) (reencrypt_vec self temp_prod_2).

(** [_vec_mult(V, x)] *)
Definition _vec_mult (V : vector) (x : num) : M vector :=
  let n := length V in
  temp_prod_2 <- collect n (fun i => Vi <- getitem V i ;; ret (nmul Vi x)) ;;
  call (EvReencryptVec temp_prod_2) (reencrypt_vec self temp_prod_2).

(** [_vec_cross(V1, V2)] *)
Definition _vec_cross (V1 V2 : vector) : M matrix :=
  let n := length V1 in
  temp_prod_2 <- collect n (fun i =>
    collect n (fun j =>
      V1i <- getitem V1 i ;; V2j <- getitem V2 j ;;
      ret (nmul V1i V2j))) ;;
  call (EvReencrypt temp_prod_2) (reencrypt self temp_prod_2).

(** The variables assigned in the inner loop of [_pow_eig_comb]. *)
Record power_vars : Type := {
  pv_x : vector;
  pv_lambda : num;
  pv_w : vector;
  pv_w_old : num
}.

(** The variables carried around the outer loop of [_pow_eig_comb]. *)
Record eig_vars : Type := {
  ev_C : matrix;
  ev_lambdas : vector;
  ev_W : matrix
}.

(** One pass of the inner loop, for loop index [j]. *)
Definition power_step (no_iterations : nat) (C : matrix) (j : nat) (s : power_vars)
  : M power_vars :=
  x <- _mat_vec_mult C (pv_w s) ;;
  __lambda <- _norm x ;;
  w <- _goldschmidt_vector_division x __lambda ;;
  if Nat.eqb (j + 2) no_iterations then
    w0 <- getitem w 0 ;;
    ret {| pv_x := x; pv_lambda := __lambda; pv_w := w; pv_w_old := w0 |}
  else
    ret {| pv_x := x; pv_lambda := __lambda; pv_w := w; pv_w_old := pv_w_old s |}.

(** One pass of the outer loop: an eigenpair is extracted and [C] deflated.
    [__lambda] is unbound before the inner loop; the placeholder is
    overwritten by the first of its two passes. *)
Definition eig_step (n : nat) (s : eig_vars) : M eig_vars :=
  let C := ev_C s in
  let no_iterations := 2%nat in
  let w_old := one in
  let x := np_ones n in
  nrm <- _norm x ;;
  w <- _goldschmidt_vector_division x nrm ;;
  p <- for_range no_iterations (power_step no_iterations C) 0
         {| pv_x := x; pv_lambda := Plain 0; pv_w := w; pv_w_old := w_old |} ;;
  let w := pv_w p in
  w0 <- getitem w 0 ;;
  dividend <- _goldschmidt_division w0 (pv_w_old p) ;;
  let __lambda := nmul dividend (pv_lambda p) in
  w <- _vec_mult w dividend ;;
  w <- call (EvReencryptVec w) (reencrypt_vec self w) ;;
  let lambdas := ev_lambdas s ++ [__lambda] in
  let W := ev_W s ++ [w] in
  temp <- _vec_mult w (nmul minus_one __lambda) ;;
  temp <- _vec_cross temp w ;;
  C <- lift (np_iadd_mat C temp) ;;
  ret {| ev_C := C; ev_lambdas := lambdas; ev_W := W |}.

(** [_pow_eig_comb(C)] *)
Definition _pow_eig_comb (C : matrix) : M (vector * matrix) :=
  let n := length C in
  s <- for_range n (fun _ => eig_step n) 0
         {| ev_C := C; ev_lambdas := []; ev_W := [] |} ;;
  ret (ev_lambdas s, ev_W s).

(** [_euclidean_distance(p, q)] *)
Definition _euclidean_distance (p q : vector) : M num :=
  sub <- lift (np_add p (np_scale minus_one q)) ;;
  prod <- lift (np_mul sub sub) ;;
  let __sum := np_sum prod in
  _newton_sqrt __sum.

(** [_project(X, W, mu)] *)
Definition _project (X : list matrix) (W : matrix) (mu : vector) : M (list vector) :=
  let mu := np_scale minus_one mu in
  for_each X (fun mat =>
    let temp := concat mat in
    arg <- lift (np_add temp mu) ;;
    _mat_vec_mult W arg).

(** [__init__]: only [is_trained] is assigned. *)
Definition __init__ : model :=
  {| is_trained := false; eigenfaces := None; mean_face := None;
     projected_training_images := None |}.

(** The branch [n <= d] of [_pca]: the small covariance matrix, then the
    eigenvectors are mapped back and normalized column by column. *)
Definition pca_wide (X : matrix) (n : nat) : W (vector * matrix) :=
  C <- engine (_matrix_mult X (transpose X)) ;;
  LW <- engine (_pow_eig_comb C) ;;
  let Lambdas := fst LW in
  W1 <- engine (_matrix_mult (transpose X) (snd LW)) ;;
  W2 <- for_range n
    (fun i Wc =>
       col <- lift (column Wc i) ;;
       col' <- lift (column Wc i) ;;
       nrm <- engine (_norm col') ;;
       v <- engine (_goldschmidt_vector_division col nrm) ;;
       lift (set_column Wc i v))
    0 W1 ;;
  ret (Lambdas, W2).

(** [_pca(X)]; [X] is the caller's array. *)
Definition _pca (X : loc) : W matrix :=
  Xv <- load X ;;
  nd <- lift (np_shape2 Xv) ;;
  let n := fst nd in
  let d := snd nd in
  mu <- getattr mean_face ;;
  Xv <- lift (np_iadd_rows Xv (np_scale minus_one mu)) ;;
  _ <- store X Xv ;;
  Xv <- load X ;;
  LW <- (if Nat.ltb d n then
           C <- engine (_matrix_mult (transpose Xv) Xv) ;;
           engine (_pow_eig_comb C)
         else pca_wide Xv n) ;;
  let Lambdas := fst LW in
  let Wm := snd LW in
  k <- engine (call (EvComponents Lambdas) (determine_components self Lambdas)) ;;
  match k with
  | None => raise TypeError
  | Some k => collect k (fun i => getitem Wm i)
  end.

(** [Train(normalized_training_images, vectorized_training_images)] *)
Definition Train (normalized_training_images : list matrix)
    (vectorized_training_images : loc) : W unit :=
  X <- load vectorized_training_images ;;
  mean <- engine (_vector_mean X) ;;
  _ <- setattr (set_mean_face mean) ;;
  eig <- _pca vectorized_training_images ;;
  _ <- setattr (set_eigenfaces eig) ;;
  Wm <- getattr eigenfaces ;;
  mu <- getattr mean_face ;;
  proj <- engine (_project normalized_training_images Wm mu) ;;
  _ <- setattr (set_projected_training_images proj) ;;
  setattr (set_is_trained true).

(** [Classify(normalized_test_images, training_labels)] *)
Definition Classify {label : Type} (normalized_test_images : list matrix)
    (training_labels : list label) : W (list label) :=
  Wm <- getattr eigenfaces ;;
  mu <- getattr mean_face ;;
  q <- engine (_project normalized_test_images Wm mu) ;;
  let n := length q in
  proj <- getattr projected_training_images ;;
  let m := length proj in
  collect n (fun i =>
    distances <- collect m (fun j =>
      pj <- getitem proj j ;;
      qi <- getitem q i ;;
      engine (_euclidean_distance pj qi)) ;;
    classification_index <-
      engine (call (EvDistance distances) (distance_comparison self distances)) ;;
    getitem training_labels classification_index).

End Engine.
End EigenfacesServer.


(** ** Definitions used by the statements *)


(** One Newton step towards the square root of [a], as the specification
    writes it: [x_{n+1} = 0.5 * (x_n + divide(a, x_n))], where
    [divide(a, x_n)] is [1 / x_n * a]. *)
Definition newton_step (a y : Qc) : Qc := Q2Qc (1 # 2) * (y + 1 / y * a).


(** The same step on real numbers. *)
Definition newton_step_R (a y : R) : R := (/ 2 * (y + / y * a))%R.

(** The component count as the specification words it: the smallest [k]
    such that the first [k] eigenvalues, normalized by the total, sum to more
    than the variance threshold. *)
Definition share_of_first (L : list Qc) (k : nat) : bool :=
  EigenfacesClient.share_exceeds
    (EigenfacesClient.sum_Qc (firstn k L)) (EigenfacesClient.sum_Qc L)
    EigenfacesClient.v_threshold.

Definition select_component_count (L : list Qc) : option nat :=
  find (share_of_first L) (seq 0 (S (length L))).

(** *** The products before their refresh

    The loops of the four multiplying primitives, as computations that cannot
    touch the trace: they index, multiply and sum, nothing else. *)

Definition item {A} (l : list A) (i : nat) : res A :=
  match nth_error l i with
  | Some a => Ok a
  | None => Err IndexError
  end.

Definition rbind {A B} (r : res A) (k : A -> res B) : res B :=
  match r with
  | Ok a => k a
  | Err e => Err e
  end.

Notation "x <~ r ;; k" := (rbind r (fun x => k))
  (at level 61, r at next level, right associativity) : comp_scope.

(** [[f 0, ..., f (n - 1)]], up to the first exception. *)
Definition tabulate {A} (n : nat) (f : nat -> res A) : res (list A) :=
  mapM_res f (seq 0 n).

Definition matrix_product (A B : matrix) : res matrix :=
  B0 <~ item B 0 ;;
  tabulate (length A) (fun i =>
    tabulate (length B0) (fun j =>
      terms <~ tabulate (length B) (fun k =>
        Ai <~ item A i ;; Aik <~ item Ai k ;;
        Bk <~ item B k ;; Bkj <~ item Bk j ;;
        Ok (nmul Aik Bkj)) ;;
      Ok (np_sum terms))).

Definition matrix_vector_product (A : matrix) (V : vector) : res vector :=
  A0 <~ item A 0 ;;
  tabulate (length A) (fun i =>
    terms <~ tabulate (length A0) (fun j =>
      Ai <~ item A i ;; Aij <~ item Ai j ;;
      Vj <~ item V j ;;
      Ok (nmul Aij Vj)) ;;
    Ok (np_sum terms)).

Definition scaled_vector (V : vector) (x : num) : res vector :=
  tabulate (length V) (fun i => Vi <~ item V i ;; Ok (nmul Vi x)).

Definition outer_product (V1 V2 : vector) : res matrix :=
  tabulate (length V1) (fun i =>
    tabulate (length V1) (fun j =>
      V1i <~ item V1 i ;; V2j <~ item V2 j ;;
      Ok (nmul V1i V2j))).

(** [returns m r]: the computation [m] changes no state and yields [r]. *)
Definition returns {St A} (m : Comp St A) (r : res A) : Prop :=
  forall t : St, m t = (t, r).

(** A primitive that raises before any oracle call, or else refreshes its
    product [raw] once, as its last step, and returns the oracle's answer. *)
Definition refreshed_once {A} (m : M A) (raw : res A) (ev : A -> event)
    (oracle : A -> res A) : Prop :=
  forall t : trace,
    m t = match raw with
          | Ok P => (t ++ [ev P], oracle P)
          | Err e => (t, Err e)
          end.

(** [len(A[0])], where there is a first row. *)
Definition row_length (A : matrix) : nat :=
  match A with
  | [] => 0
  | r :: _ => length r
  end.




(** [keeps view m]: running [m] leaves the part [view] of the state as it
    was, whether [m] returns or raises. *)
Definition keeps {St T A} (view : St -> T) (m : Comp St A) : Prop :=
  forall s : St, view (fst (m s)) = view s.

(** The part of the model that tells a trained server from an untrained one. *)
Definition training_view (w : world) : bool * option (list vector) :=
  (is_trained (obj w), projected_training_images (obj w)).

(** The states a server object goes through: it is constructed, then [Train]
    and [Classify] are called on it, with any arguments; between the calls
    the caller may do anything to its arrays. *)
Inductive reachable (self : Oracles) : world -> Prop :=
| reach_init (h : list matrix) :
    reachable self {| obj := EigenfacesServer.__init__; heap := h; calls := [] |}
| reach_train (w : world) (images : list matrix) (X : loc) :
    reachable self w -> reachable self (fst (EigenfacesServer.Train self images X w))
| reach_classify (w : world) (images : list matrix) (label : Type)
    (labels : list label) :
    reachable self w -> reachable self (fst (EigenfacesServer.Classify self images labels w))
| reach_caller (w : world) (h : list matrix) :
    reachable self w ->
    reachable self {| obj := obj w; heap := h; calls := calls w |}.

(** A method that ends with [is_trained] set when it returns, and with the
    training view untouched when it raises. *)
Definition completes_or_keeps {A} (m : W A) : Prop :=
  forall w : world,
    match snd (m w) with
    | Ok _ => is_trained (obj (fst (m w))) = true
    | Err _ => training_view (fst (m w)) = training_view w
    end.

(** The in-place update at the head of [_pca]: the shape is unpacked, then
    [X += -1 * mean_face]. *)
Definition subtract_mean (X : matrix) (mean : vector) : res matrix :=
  match np_shape2 X with
  | Ok _ => np_iadd_rows X (np_scale minus_one mean)
  | Err e => Err e
  end.

(** Row by row: the row minus the mean face. *)
Definition rows_minus (X : matrix) (mean : vector) : matrix :=
  map (fun row => zip_with nadd row (np_scale minus_one mean)) X.

(** *** The eigen-decomposition as the specification words it *)

Section PowerIteration.

Variable self : Oracles.





End PowerIteration.


(** ** Definitions used by the further properties *)






(** The linear algebra of the textbook, on the numbers behind the
    ciphertexts: [m[i][j]], a finite sum, the matrix product and the
    matrix-vector product. *)
Definition entry (m : list (list Qc)) (i j : nat) : Qc := nth j (nth i m []) 0.

Definition sigma (n : nat) (f : nat -> Qc) : Qc :=
  EigenfacesClient.sum_Qc (map f (seq 0 n)).

Definition mat_mul (a b : list (list Qc)) : list (list Qc) :=
  map (fun i =>
         map (fun j => sigma (length b) (fun k => entry a i k * entry b k j))
             (seq 0 (length (nth 0 b []))))
      (seq 0 (length a)).

Definition mat_vec (m : list (list Qc)) (v : list Qc) : list Qc :=
  map (fun i => sigma (length (nth 0 m [])) (fun j => entry m i j * nth j v 0))
      (seq 0 (length m)).
(** * Properties *)

Import EigenfacesServer.

Unset Implicit Arguments.

(** ** The monad *)

(** ** Division *)

Lemma seed_plain (b : Qc) :
  b <> 0 -> EigenfacesClient._goldschmidt_initializer (Plain b) = Ok (Plain (1 / b)).
Proof.
  intros Hb. unfold EigenfacesClient._goldschmidt_initializer.
  destruct (Qc_eq_dec b 0) as [E | _]; [contradiction | reflexivity].
Qed.

Lemma division_plain (a b : Qc) (t : trace) :
  b <> 0 ->
  _goldschmidt_division EigenfacesClient.oracles (Plain a) (Plain b) t
  = (t ++ [EvSeed (Plain b)], Ok (Plain (1 / b * a))).
Proof.
  intros Hb. unfold _goldschmidt_division, call, bind.
  change (goldschmidt_initializer EigenfacesClient.oracles (Plain b))
    with (EigenfacesClient._goldschmidt_initializer (Plain b)).
  rewrite (seed_plain b Hb). reflexivity.
Qed.



(** ** Square root *)

(** *** From canonical rationals to real numbers *)

Lemma Q2R_Q2Qc (q : Q) : Q2R (Q2Qc q) = Q2R q.
Proof. apply Qeq_eqR. simpl. apply Qred_correct. Qed.

Lemma Q2R_Qcplus (x y : Qc) : Q2R (x + y)%Qc = (Q2R x + Q2R y)%R.
Proof. unfold Qcplus. now rewrite Q2R_Q2Qc, Q2R_plus. Qed.

Lemma Q2R_Qcmult (x y : Qc) : Q2R (x * y)%Qc = (Q2R x * Q2R y)%R.
Proof. unfold Qcmult. now rewrite Q2R_Q2Qc, Q2R_mult. Qed.

Lemma Qc_nonzero_Q (x : Qc) : x <> 0 -> ~ (x == 0%Q)%Q.
Proof. intros H E. apply H. apply Qc_is_canon. exact E. Qed.

Lemma Q2R_Qcinv (x : Qc) : x <> 0 -> Q2R (/ x)%Qc = (/ Q2R x)%R.
Proof.
  intros H. unfold Qcinv. rewrite Q2R_Q2Qc. apply Q2R_inv. now apply Qc_nonzero_Q.
Qed.

Lemma Q2R_Qc_pos (x : Qc) : 0 < x -> (0 < Q2R x)%R.
Proof. intros H. rewrite <- RMicromega.Q2R_0. apply Qlt_Rlt. exact H. Qed.

Lemma Qc_pos_nonzero (x : Qc) : 0 < x -> x <> 0.
Proof. intros H E. rewrite E in H. discriminate H. Qed.

Lemma Q2R_newton_step (a y : Qc) :
  y <> 0 -> Q2R (newton_step a y) = newton_step_R (Q2R a) (Q2R y).
Proof.
  intros Hy. unfold newton_step, newton_step_R, Qcdiv.
  rewrite !Q2R_Qcmult, Q2R_Qcplus, !Q2R_Qcmult, (Q2R_Qcinv y Hy), Q2R_Q2Qc.
  replace (Q2R 1%Qc) with 1%R by (unfold Q2R; simpl; lra).
  replace (Q2R (1 # 2)) with (/ 2)%R by (unfold Q2R; simpl; lra).
  ring.
Qed.

(** *** Newton's iteration on the reals *)

Section NewtonReal.

Variables a s : R.
Hypothesis s_pos : (0 < s)%R.
Hypothesis s_square : (s * s = a)%R.






End NewtonReal.

(** *** The iteration on rationals *)

Lemma this_Q2Qc (q : Q) : (this (Q2Qc q) == q)%Q.
Proof. apply Qred_correct. Qed.

Lemma Qcmult_pos (x y : Qc) : 0 < x -> 0 < y -> 0 < x * y.
Proof.
  unfold Qclt, Qcmult. intros Hx Hy. rewrite (this_Q2Qc (x * y)).
  now apply Qmult_lt_0_compat.
Qed.

Lemma Qcplus_pos (x y : Qc) : 0 < x -> 0 < y -> 0 < x + y.
Proof.
  unfold Qclt, Qcplus. intros Hx Hy. rewrite (this_Q2Qc (x + y)).
  apply Qlt_trans with (x + 0)%Q; [now rewrite Qplus_0_r |].
  now apply Qplus_lt_r.
Qed.

Lemma Qcinv_pos (x : Qc) : 0 < x -> 0 < / x.
Proof.
  unfold Qclt, Qcinv. intros Hx. rewrite (this_Q2Qc (/ x)).
  now apply Qinv_lt_0_compat.
Qed.

Lemma newton_step_pos (a y : Qc) : 0 < a -> 0 < y -> 0 < newton_step a y.
Proof.
  intros Ha Hy. unfold newton_step, Qcdiv.
  apply Qcmult_pos; [reflexivity |].
  apply Qcplus_pos; [exact Hy |].
  apply Qcmult_pos; [| exact Ha].
  rewrite Qcmult_1_l. now apply Qcinv_pos.
Qed.

Lemma newton_iter_pos (a : Qc) (n : nat) (y : Qc) :
  0 < a -> 0 < y -> 0 < Nat.iter n (newton_step a) y.
Proof.
  intros Ha Hy. induction n as [| n IH]; simpl; [exact Hy |].
  now apply newton_step_pos.
Qed.

Lemma Q2R_newton_iter (a : Qc) (n : nat) (y : Qc) :
  0 < a -> 0 < y ->
  Q2R (Nat.iter n (newton_step a) y) = Nat.iter n (newton_step_R (Q2R a)) (Q2R y).
Proof.
  intros Ha Hy. induction n as [| n IH]; [reflexivity |].
  rewrite !Nat.iter_succ, Q2R_newton_step, IH; [reflexivity |].
  apply Qc_pos_nonzero. now apply newton_iter_pos.
Qed.

(** *** The loop of [_newton_sqrt] on a positive plaintext number *)


Lemma newton_step_R_half (a y : R) :
  (0 < a)%R -> (0 < y)%R -> (y / 2 < newton_step_R a y)%R.
Proof.
  intros Ha Hy. unfold newton_step_R.
  assert (H : (0 < / y * a)%R) by (apply Rmult_lt_0_compat; [apply Rinv_0_lt_compat |]; lra).
  lra.
Qed.

Lemma newton_iter_R_halves (a : R) (n : nat) (y : R) :
  (0 < a)%R -> (0 < y)%R ->
  (0 < Nat.iter n (newton_step_R a) y /\ y / 2 ^ n <= Nat.iter n (newton_step_R a) y)%R.
Proof.
  intros Ha Hy. induction n as [| n [IH0 IH1]].
  - simpl. lra.
  - rewrite Nat.iter_succ.
    pose proof (newton_step_R_half a _ Ha IH0) as H.
    assert (P : (0 < 2 ^ n)%R) by (apply pow_lt; lra).
    split; [lra |].
    replace (y / 2 ^ S n)%R with (y / 2 ^ n / 2)%R by (simpl; field; lra).
    lra.
Qed.




(** Thirty steps are too few far from [1]: from [x = 2^80], whose root is
    [2^40], the result is still above [2^50]. *)
Lemma newton_sqrt_far_from_root :
  let x := Q2Qc (inject_Z (2 ^ 80)) in
  sqrt (Q2R x) = (2 ^ 40)%R
  /\ (2 ^ 50 <= Q2R (Nat.iter 30 (newton_step x) x))%R.
Proof.
  intros x.
  assert (Hx : 0 < x) by reflexivity.
  assert (E : Q2R x = (2 ^ 40 * 2 ^ 40)%R).
  { unfold x. rewrite Q2R_Q2Qc. unfold Q2R, inject_Z. cbn [Qnum Qden].
    rewrite pow_IZR, <- mult_IZR, Rinv_1, Rmult_1_r.
    apply f_equal. reflexivity. }
  split.
  - rewrite E. apply sqrt_square. apply pow_le. lra.
  - rewrite (Q2R_newton_iter _ 30 _ Hx Hx).
    destruct (newton_iter_R_halves _ 30 _ (Q2R_Qc_pos x Hx) (Q2R_Qc_pos x Hx)) as [_ H].
    eapply Rle_trans; [| exact H]. rewrite E.
    right. field.
Qed.

(** ** The component count *)

Import EigenfacesClient.

Lemma decrypt_encrypt_vec (L : list Qc) : _decrypt_vec (_encrypt_vec L) = Ok L.
Proof.
  unfold _decrypt_vec, _encrypt_vec.
  induction L as [| x L IH]; simpl; [reflexivity |]. now rewrite IH.
Qed.

Lemma sum_Qc_snoc (P : list Qc) (x : Qc) : sum_Qc (P ++ [x]) = sum_Qc P + x.
Proof. unfold sum_Qc. now rewrite fold_left_app. Qed.

Lemma share_of_nothing (s : Qc) : share_exceeds 0 s v_threshold = false.
Proof.
  unfold share_exceeds. destruct (Qc_eq_dec s 0) as [E | N]; [reflexivity |].
  replace (0 / s) with 0 by (field; exact N). reflexivity.
Qed.

Lemma count_after_prefix (s : Qc) (R P : list Qc) :
  find (fun k => share_exceeds (sum_Qc (firstn k (P ++ R))) s v_threshold)
       (seq (S (length P)) (length R))
  = option_map S (first_exceeding (length P) (cumsum_from (sum_Qc P) R) s).
Proof.
  revert P. induction R as [| x R IH]; intros P; [reflexivity |].
  cbn [length seq find cumsum_from first_exceeding].
  replace (firstn (S (length P)) (P ++ x :: R)) with (P ++ [x]).
  2:{ change (x :: R) with ([x] ++ R). rewrite app_assoc.
      replace (S (length P)) with (length (P ++ [x]) + 0)%nat
        by (rewrite length_app; simpl; lia).
      rewrite firstn_app_2. simpl. now rewrite app_nil_r. }
  rewrite sum_Qc_snoc.
  destruct (share_exceeds (sum_Qc P + x) s v_threshold); [reflexivity |].
  specialize (IH (P ++ [x])).
  rewrite <- app_assoc, length_app, sum_Qc_snoc in IH. simpl in IH.
  replace (length P + 1)%nat with (S (length P)) in IH by lia.
  exact IH.
Qed.

(** Whatever the eigenvalues, the oracle answers one less than the count of
    the specification. *)
Lemma component_count_off_by_one (L : list Qc) :
  exists r : option nat,
    _n_components_comparison (_encrypt_vec L) = Ok r
    /\ select_component_count L = option_map S r.
Proof.
  exists (first_exceeding 0 (np_cumsum L) (sum_Qc L)). split.
  - unfold _n_components_comparison. now rewrite decrypt_encrypt_vec.
  - unfold select_component_count. cbn [seq find].
    unfold share_of_first at 1. cbn [firstn].
    change (sum_Qc []) with 0. rewrite share_of_nothing.
    exact (count_after_prefix (sum_Qc L) L []).
Qed.

(** C3, evaluated: on the eigenvalues [3, 1] the cumulative shares are
    [0.75, 1.0]; the oracle returns the position [1] of the first share above
    [0.99], where the smallest count of eigenvalues whose share exceeds it is
    [2]. *)
Theorem C3_component_count_returns_index :
  _n_components_comparison [Enc (Q2Qc 3); Enc (Q2Qc 1)] = Ok (Some 1%nat)
  /\ select_component_count [Q2Qc 3; Q2Qc 1] = Some 2%nat
  /\ share_of_first [Q2Qc 3; Q2Qc 1] 1 = false.
Proof. repeat split; reflexivity. Qed.

(** ** Loops that leave the state alone *)

Lemma returns_ret {St A} (a : A) : returns (St := St) (ret a) (Ok a).
Proof. intros t. reflexivity. Qed.

Lemma returns_lift {St A} (r : res A) : returns (St := St) (lift r) r.
Proof. intros t. reflexivity. Qed.

Lemma returns_getitem {St A} (l : list A) (i : nat) :
  returns (St := St) (getitem l i) (item l i).
Proof. intros t. unfold getitem, item. now destruct (nth_error l i). Qed.

Lemma returns_bind {St A B} (m : Comp St A) (r : res A)
    (k : A -> Comp St B) (k' : A -> res B) :
  returns m r -> (forall a, returns (k a) (k' a)) -> returns (bind m k) (rbind r k').
Proof.
  intros Hm Hk t. unfold bind. rewrite Hm.
  destruct r as [a | e]; [apply Hk | reflexivity].
Qed.

Lemma for_range_append {St A} (f : nat -> Comp St A) (g : nat -> res A) (n : nat) :
  (forall i, returns (f i) (g i)) ->
  forall (i : nat) (acc : list A) (t : St),
    for_range n (fun i acc => x <- f i ;; ret (acc ++ [x])) i acc t
    = (t, match mapM_res g (seq i n) with
          | Ok l => Ok (acc ++ l)
          | Err e => Err e
          end).
Proof.
  intros Hf. induction n as [| n IH]; intros i acc t.
  - simpl. unfold ret. now rewrite app_nil_r.
  - cbn [for_range seq mapM_res]. unfold bind at 1. unfold bind at 1.
    rewrite (Hf i t). destruct (g i) as [x | e]; [| reflexivity].
    unfold ret at 1. rewrite IH.
    destruct (mapM_res g (seq (S i) n)) as [l | e]; [| reflexivity].
    now rewrite <- app_assoc.
Qed.

Lemma returns_collect {St A} (n : nat) (f : nat -> Comp St A) (g : nat -> res A) :
  (forall i, returns (f i) (g i)) -> returns (collect n f) (tabulate n g).
Proof.
  intros Hf t. unfold collect, tabulate. rewrite (for_range_append f g n Hf).
  now destruct (mapM_res g (seq 0 n)).
Qed.

Ltac loops :=
  repeat first
    [ apply returns_ret
    | apply returns_getitem
    | apply returns_lift
    | apply returns_collect; intros ?
    | apply returns_bind; [| intros ?] ].

Lemma refresh_after {A} (m : M A) (raw : res A) (ev : A -> event)
    (oracle : A -> res A) :
  returns m raw ->
  refreshed_once (P <- m ;; call (ev P) (oracle P)) raw ev oracle.
Proof. intros H t. unfold bind. rewrite H. now destruct raw. Qed.

(** ** The refresh of the multiplying primitives *)

Lemma matrix_mult_refresh (self : Oracles) (A B : matrix) :
  refreshed_once (_matrix_mult self A B) (matrix_product A B)
    EvReencrypt (reencrypt self).
Proof.
  intros t. unfold _matrix_mult, matrix_product. unfold bind at 1.
  rewrite (returns_getitem B 0 t).
  destruct (item B 0) as [B0 | e]; [| reflexivity].
  cbn [rbind]. apply refresh_after. loops.
Qed.

Lemma mat_vec_mult_refresh (self : Oracles) (A : matrix) (V : vector) :
  refreshed_once (_mat_vec_mult self A V) (matrix_vector_product A V)
    EvReencryptVec (reencrypt_vec self).
Proof.
  intros t. unfold _mat_vec_mult, matrix_vector_product. unfold bind at 1.
  rewrite (returns_getitem A 0 t).
  destruct (item A 0) as [A0 | e]; [| reflexivity].
  cbn [rbind]. apply refresh_after. loops.
Qed.

Lemma vec_mult_refresh (self : Oracles) (V : vector) (x : num) :
  refreshed_once (_vec_mult self V x) (scaled_vector V x)
    EvReencryptVec (reencrypt_vec self).
Proof. unfold _vec_mult, scaled_vector. apply refresh_after. loops. Qed.

Lemma vec_cross_refresh (self : Oracles) (V1 V2 : vector) :
  refreshed_once (_vec_cross self V1 V2) (outer_product V1 V2)
    EvReencrypt (reencrypt self).
Proof. unfold _vec_cross, outer_product. apply refresh_after. loops. Qed.

(** C7: whatever the oracles and the operands, each of matrix-matrix
    multiply, matrix-vector multiply, scalar-vector multiply and outer product
    either raises in its loops, before any oracle call, or hands its whole
    product to the reencryption oracle exactly once, as its last step, and
    returns what the oracle returned. *)
Theorem C7_multiplying_primitives_refresh_once (self : Oracles) :
  (forall A B, refreshed_once (_matrix_mult self A B) (matrix_product A B)
                 EvReencrypt (reencrypt self))
  /\ (forall A V, refreshed_once (_mat_vec_mult self A V) (matrix_vector_product A V)
                    EvReencryptVec (reencrypt_vec self))
  /\ (forall V x, refreshed_once (_vec_mult self V x) (scaled_vector V x)
                    EvReencryptVec (reencrypt_vec self))
  /\ (forall V1 V2, refreshed_once (_vec_cross self V1 V2) (outer_product V1 V2)
                      EvReencrypt (reencrypt self)).
Proof.
  repeat split; intros.
  - apply matrix_mult_refresh.
  - apply mat_vec_mult_refresh.
  - apply vec_mult_refresh.
  - apply vec_cross_refresh.
Qed.

(** ** Operands of incompatible shapes *)

Lemma tabulate_ext {A} (n : nat) (f g : nat -> res A) :
  (forall i, (i < n)%nat -> f i = g i) -> tabulate n f = tabulate n g.
Proof.
  unfold tabulate. intros H.
  assert (G : forall l, (forall i, In i l -> f i = g i) -> mapM_res f l = mapM_res g l).
  { induction l as [| x l IH]; intros Hl; [reflexivity |].
    simpl. rewrite (Hl x (or_introl eq_refl)), IH; [reflexivity |].
    intros i Hi. apply Hl. now right. }
  apply G. intros i Hi. apply H. apply in_seq in Hi. lia.
Qed.

(** A loop whose passes can only raise [e], and one of which does, raises [e]. *)
Lemma mapM_res_raises {A B} (f : A -> res B) (e : exn) (l : list A) :
  (forall x e', In x l -> f x = Err e' -> e' = e) ->
  (exists x, In x l /\ f x = Err e) ->
  mapM_res f l = Err e.
Proof.
  induction l as [| y l IH]; intros Honly [x [Hin Hx]]; [contradiction |].
  simpl. destruct (f y) as [b | e'] eqn:Ey.
  - destruct Hin as [-> | Hin]; [congruence |].
    rewrite IH; [reflexivity | | now exists x].
    intros z e'' Hz. apply Honly. now right.
  - f_equal. apply (Honly y e'); [now left | exact Ey].
Qed.

Lemma item_firstn {A} (p : nat) (l : list A) (k : nat) :
  (k < p)%nat -> item (firstn p l) k = item l k.
Proof.
  intros Hk. unfold item. rewrite nth_error_firstn.
  destruct (Nat.ltb_spec k p); [reflexivity | lia].
Qed.

Lemma item_map_firstn {A} (p : nat) (X : list (list A)) (i : nat) :
  item (map (firstn p) X) i = (row <~ item X i ;; Ok (firstn p row)).
Proof.
  unfold item, rbind. rewrite nth_error_map. now destruct (nth_error X i).
Qed.

Lemma item_short {A} (l : list A) (k : nat) :
  (length l <= k)%nat -> item l k = Err IndexError.
Proof.
  intros H. unfold item. apply nth_error_None in H. now rewrite H.
Qed.

Lemma tabulate_first_raises {A} (n : nat) (f : nat -> res A) (e : exn) :
  f 0%nat = Err e -> tabulate (S n) f = Err e.
Proof. intros H. unfold tabulate. simpl. now rewrite H. Qed.

Ltac only_index_error :=
  unfold rbind, item;
  repeat match goal with
         | |- context [nth_error ?l ?i] => destruct (nth_error l i)
         end;
  let E := fresh "E" in
  intros E; first [discriminate E | injection E as E; now symmetry].

(** The matrix-vector product reads [len(M[0])] entries of the vector. *)
Lemma matrix_vector_product_truncates (A : matrix) (V : vector) :
  matrix_vector_product A V = matrix_vector_product A (firstn (row_length A) V).
Proof.
  unfold matrix_vector_product. destruct A as [| A0 A']; [reflexivity |].
  cbn [item nth_error rbind row_length].
  apply tabulate_ext. intros i _. f_equal.
  apply tabulate_ext. intros j Hj.
  now rewrite (item_firstn _ V j Hj).
Qed.

Lemma matrix_vector_product_short (A0 : list num) (A' : matrix) (V : vector) :
  (length V < length A0)%nat ->
  matrix_vector_product (A0 :: A') V = Err IndexError.
Proof.
  intros H. unfold matrix_vector_product. cbn [item nth_error rbind length].
  apply tabulate_first_raises.
  replace (tabulate (length A0) _) with (@Err (list num) IndexError); [reflexivity |].
  symmetry. apply mapM_res_raises.
  - intros j e _. cbn [nth_error]. only_index_error.
  - exists (length V). split; [apply in_seq; lia |].
    change (item (A0 :: A') 0) with (Ok A0). cbn [rbind].
    rewrite (item_short V (length V) (Nat.le_refl _)).
    unfold rbind, item. now destruct (nth_error A0 (length V)).
Qed.

(** The matrix product reads [len(B)] entries of each row of [A]. *)
Lemma matrix_product_truncates (A B : matrix) :
  matrix_product A B = matrix_product (map (firstn (length B)) A) B.
Proof.
  unfold matrix_product. destruct (item B 0) as [B0 | e]; [| reflexivity].
  cbn [rbind]. rewrite length_map.
  apply tabulate_ext. intros i _.
  apply tabulate_ext. intros j _. f_equal.
  apply tabulate_ext. intros k Hk.
  rewrite item_map_firstn.
  destruct (item A i) as [Ai |]; cbn [rbind]; [| reflexivity].
  now rewrite (item_firstn _ Ai k Hk).
Qed.

Lemma matrix_product_short (A0 : list num) (A' : matrix) (b : num) (B0 : list num)
    (B' : matrix) :
  (length A0 < length ((b :: B0) :: B'))%nat ->
  matrix_product (A0 :: A') ((b :: B0) :: B') = Err IndexError.
Proof.
  intros H. unfold matrix_product.
  cbn [item nth_error rbind]. cbn [length] in *.
  apply tabulate_first_raises. apply tabulate_first_raises.
  replace (tabulate (S (length B')) _) with (@Err (list num) IndexError); [reflexivity |].
  symmetry. apply mapM_res_raises.
  - intros k e _. cbn [nth_error]. only_index_error.
  - exists (length A0). split; [apply in_seq; lia |].
    change (item (A0 :: A') 0) with (Ok A0). cbn [rbind].
    now rewrite (item_short A0 (length A0) (Nat.le_refl _)).
Qed.

Lemma refreshed_once_raw {A} (m m' : M A) (raw raw' : res A) (ev : A -> event)
    (oracle : A -> res A) (t : trace) :
  refreshed_once m raw ev oracle -> refreshed_once m' raw' ev oracle ->
  raw = raw' -> m t = m' t.
Proof. intros H H' E. rewrite (H t), (H' t), E. reflexivity. Qed.

(** Equality of computed results, up to the proofs that rationals are in
    lowest terms. *)
Ltac same_numbers :=
  vm_compute;
  repeat first [ reflexivity | apply Qc_is_canon; reflexivity | f_equal ].

(** C8, as amended: the two products check no shape.  An operand that is too
    short for the loops (a vector shorter than the first row of [M], a first
    row of [A] shorter than [len(B)]) makes the indexing raise the host's
    [IndexError], before any oracle call; an operand that is too long is not
    detected: the entries beyond [len(M[0])], or beyond [len(B)] in each row
    of [A], are never read. *)
Theorem C8_shape_mismatch (self : Oracles) :
  (forall (A0 : list num) (A' : matrix) (V : vector) (t : trace),
      (length V < length A0)%nat ->
      _mat_vec_mult self (A0 :: A') V t = (t, Err IndexError))
  /\ (forall (A : matrix) (V : vector) (t : trace),
         _mat_vec_mult self A V t
         = _mat_vec_mult self A (firstn (row_length A) V) t)
  /\ (forall (A0 : list num) (A' : matrix) (b : num) (B0 : list num) (B' : matrix)
             (t : trace),
         (length A0 < length ((b :: B0) :: B'))%nat ->
         _matrix_mult self (A0 :: A') ((b :: B0) :: B') t = (t, Err IndexError))
  /\ (forall (A B : matrix) (t : trace),
         _matrix_mult self A B t
         = _matrix_mult self (map (firstn (length B)) A) B t).
Proof.
  split; [| split; [| split]].
  - intros A0 A' V t H.
    rewrite (mat_vec_mult_refresh self (A0 :: A') V t).
    now rewrite (matrix_vector_product_short A0 A' V H).
  - intros A V t.
    apply (refreshed_once_raw _ _ _ _ _ _ t (mat_vec_mult_refresh self A V)
             (mat_vec_mult_refresh self A (firstn (row_length A) V))).
    apply matrix_vector_product_truncates.
  - intros A0 A' b B0 B' t H.
    rewrite (matrix_mult_refresh self (A0 :: A') ((b :: B0) :: B') t).
    now rewrite (matrix_product_short A0 A' b B0 B' H).
  - intros A B t.
    apply (refreshed_once_raw _ _ _ _ _ _ t (matrix_mult_refresh self A B)
             (matrix_mult_refresh self (map (firstn (length B)) A) B)).
    apply matrix_product_truncates.
Qed.

Lemma C8_shape_mismatch_witness :
  _mat_vec_mult EigenfacesClient.oracles
    [[Enc (Q2Qc 1); Enc (Q2Qc 2)]] [Enc (Q2Qc 1)] [] = ([], Err IndexError)
  /\ _matrix_mult EigenfacesClient.oracles
       [[Enc (Q2Qc 1)]] [[Enc (Q2Qc 1)]; [Enc (Q2Qc 2)]] [] = ([], Err IndexError).
Proof.
  destruct (C8_shape_mismatch EigenfacesClient.oracles) as [Hv [_ [Hm _]]].
  split.
  - apply Hv. simpl. lia.
  - apply Hm. simpl. lia.
Defined.

(** The claim fails where the second operand is too long: a 1 x 1 matrix
    times a vector of two entries returns a vector, no error is raised. *)
Lemma C8_surplus_entries_ignored :
  _mat_vec_mult EigenfacesClient.oracles
    [[Enc (Q2Qc 1)]] [Enc (Q2Qc 1); Enc (Q2Qc 5)] []
  = ([EvReencryptVec [Enc (Q2Qc 1)]], Ok [Enc (Q2Qc 1)])
  /\ _matrix_mult EigenfacesClient.oracles
       [[Enc (Q2Qc 1); Enc (Q2Qc 2); Enc (Q2Qc 3)]]
       [[Enc (Q2Qc 1)]; [Enc (Q2Qc 1)]] []
     = ([EvReencrypt [[Enc (Q2Qc 3)]]], Ok [[Enc (Q2Qc 3)]]).
Proof. split; same_numbers. Qed.

(** ** The mean of the rows *)

Lemma tabulate_ok {A} (n : nat) (f : nat -> res A) (h : nat -> A) :
  (forall i, (i < n)%nat -> f i = Ok (h i)) -> tabulate n f = Ok (map h (seq 0 n)).
Proof.
  unfold tabulate. intros H.
  assert (G : forall l, (forall i, In i l -> f i = Ok (h i)) ->
                        mapM_res f l = Ok (map h l)).
  { induction l as [| x l IH]; intros Hl; [reflexivity |].
    simpl. rewrite (Hl x (or_introl eq_refl)), IH; [reflexivity |].
    intros i Hi. apply Hl. now right. }
  apply G. intros i Hi. apply H. apply in_seq in Hi. lia.
Qed.














(** The seed of [_vector_mean] is requested for a plaintext number whatever
    the entries of the matrix are, ciphertexts included; no other oracle is
    called. *)
Lemma vector_mean_seed_is_plaintext (X : matrix) (t : trace) :
  fst (_vector_mean EigenfacesClient.oracles X t) = t
  \/ fst (_vector_mean EigenfacesClient.oracles X t)
     = t ++ [EvSeed (Plain (of_nat (length X)))].
Proof.
  unfold _vector_mean. cbv zeta. unfold lift.
  destruct (np_sum_axis0 X) as [sums | e]; [right | now left].
  unfold bind at 1. cbv beta iota. unfold bind at 1.
  destruct (Qc_eq_dec (of_nat (length X)) 0) as [Z | NZ].
  - unfold _goldschmidt_division, bind, call.
    change (goldschmidt_initializer EigenfacesClient.oracles (Plain (of_nat (length X))))
      with (EigenfacesClient._goldschmidt_initializer (Plain (of_nat (length X)))).
    unfold EigenfacesClient._goldschmidt_initializer.
    destruct (Qc_eq_dec (of_nat (length X)) 0); [reflexivity | contradiction].
  - change one with (Plain 1).
    rewrite (division_plain 1 (of_nat (length X)) t NZ).
    set (d := Plain (1 / of_nat (length X) * 1)).
    assert (R : returns (St := trace)
                  (X0 <- getitem X 0 ;;
                   collect (length X0)
                     (fun i => si <- getitem sums i ;; ret (nmul si d)))
                  (X0 <~ item X 0 ;;
                   tabulate (length X0)
                     (fun i => si <~ item sums i ;; Ok (nmul si d)))) by loops.
    now rewrite (R (t ++ [EvSeed (Plain (of_nat (length X)))])).
Qed.

(** ** What a method leaves alone *)

Section Frames.

Context {St T : Type} (view : St -> T).

Lemma keeps_ret {A} (a : A) : keeps view (ret (St := St) a).
Proof. intros s. reflexivity. Qed.

Lemma keeps_raise {A} (e : exn) : keeps view (raise (St := St) (A := A) e).
Proof. intros s. reflexivity. Qed.

Lemma keeps_lift {A} (r : res A) : keeps view (lift (St := St) r).
Proof. intros s. reflexivity. Qed.

Lemma keeps_getitem {A} (l : list A) (i : nat) : keeps view (getitem (St := St) l i).
Proof. intros s. unfold getitem. now destruct (nth_error l i). Qed.

Lemma keeps_bind {A B} (m : Comp St A) (k : A -> Comp St B) :
  keeps view m -> (forall a, keeps view (k a)) -> keeps view (bind m k).
Proof.
  intros Hm Hk s. unfold bind. specialize (Hm s).
  destruct (m s) as [s1 [a | e]]; simpl in Hm.
  - now rewrite Hk.
  - exact Hm.
Qed.

Lemma keeps_for_range {V} (n : nat) (body : nat -> V -> Comp St V) :
  (forall i v, keeps view (body i v)) ->
  forall i v, keeps view (for_range n body i v).
Proof.
  intros Hb. induction n as [| n IH]; intros i v.
  - apply keeps_ret.
  - cbn [for_range]. apply keeps_bind; [apply Hb | intros v'; apply IH].
Qed.

Lemma keeps_collect {A} (n : nat) (f : nat -> Comp St A) :
  (forall i, keeps view (f i)) -> keeps view (collect n f).
Proof.
  intros Hf. unfold collect. apply keeps_for_range. intros i acc.
  apply keeps_bind; [apply Hf | intros x; apply keeps_ret].
Qed.

End Frames.

Lemma keeps_engine {T A} (view : world -> T) (m : M A) :
  (forall (w : world) (t : trace),
      view {| obj := obj w; heap := heap w; calls := t |} = view w) ->
  keeps view (engine m).
Proof.
  intros H w. unfold engine. destruct (m (calls w)) as [t r]. apply H.
Qed.

Lemma keeps_getattr {T A} (view : world -> T) (field : model -> option A) :
  keeps view (getattr field).
Proof. intros w. unfold getattr. now destruct (field (obj w)). Qed.

Lemma keeps_load {T} (view : world -> T) (l : loc) : keeps view (load l).
Proof. intros w. unfold load. now destruct (nth_error (heap w) l). Qed.

Ltac frame :=
  repeat first
    [ apply keeps_ret
    | apply keeps_raise
    | apply keeps_lift
    | apply keeps_getitem
    | apply keeps_getattr
    | apply keeps_load
    | apply keeps_engine; intros; reflexivity
    | apply keeps_collect; intros ?
    | apply keeps_for_range; intros ? ?
    | apply keeps_bind; [| intros ?] ].

Lemma pca_wide_keeps_heap (self : Oracles) (X : matrix) (n : nat) :
  keeps heap (EigenfacesServer.pca_wide self X n).
Proof. unfold EigenfacesServer.pca_wide. frame. Qed.

Lemma pca_wide_keeps_obj (self : Oracles) (X : matrix) (n : nat) :
  keeps obj (EigenfacesServer.pca_wide self X n).
Proof. unfold EigenfacesServer.pca_wide. frame. Qed.

Lemma keeps_store_obj (l : loc) (X : matrix) : keeps obj (store l X).
Proof. intros w. reflexivity. Qed.

Lemma pca_keeps_obj (self : Oracles) (X : loc) : keeps obj (EigenfacesServer._pca self X).
Proof.
  unfold EigenfacesServer._pca.
  repeat first
    [ apply keeps_store_obj
    | apply pca_wide_keeps_obj
    | match goal with |- keeps _ (if ?b then _ else _) => destruct b end
    | match goal with |- keeps _ (match ?k with Some _ => _ | None => _ end) =>
        destruct k end
    | progress frame ].
Qed.

(** ** Classification needs a trained model *)

Lemma keeps_training_view {A} (m : W A) : keeps obj m -> keeps training_view m.
Proof. intros H w. unfold training_view. now rewrite H. Qed.

Lemma keeps_then_completes {A B} (m : W A) (k : A -> W B) :
  keeps training_view m ->
  (forall a, completes_or_keeps (k a)) ->
  completes_or_keeps (bind m k).
Proof.
  intros Hm Hk w. unfold bind. specialize (Hm w).
  destruct (m w) as [w1 [a | e]]; cbn [fst snd] in *.
  - specialize (Hk a w1). destruct (k a w1) as [w2 [b | e]]; cbn [fst snd] in *.
    + exact Hk.
    + congruence.
  - exact Hm.
Qed.

Lemma train_completes_or_keeps (self : Oracles) (images : list matrix) (X : loc) :
  completes_or_keeps (EigenfacesServer.Train self images X).
Proof.
  unfold EigenfacesServer.Train.
  apply keeps_then_completes; [frame | intros Xv].
  apply keeps_then_completes; [frame | intros mean].
  apply keeps_then_completes; [intros w; reflexivity | intros _].
  apply keeps_then_completes;
    [apply keeps_training_view, pca_keeps_obj | intros eig].
  apply keeps_then_completes; [intros w; reflexivity | intros _].
  apply keeps_then_completes; [frame | intros Wm].
  apply keeps_then_completes; [frame | intros mu].
  apply keeps_then_completes; [frame | intros proj].
  intros w. reflexivity.
Qed.

Lemma classify_keeps_obj (self : Oracles) (label : Type) (images : list matrix)
    (labels : list label) :
  keeps obj (EigenfacesServer.Classify self images labels).
Proof. unfold EigenfacesServer.Classify. frame. Qed.

(** Until a call of [Train] has returned, [projected_training_images] was
    never assigned. *)
Lemma untrained_has_no_projections (self : Oracles) (w : world) :
  reachable self w ->
  is_trained (obj w) = false -> projected_training_images (obj w) = None.
Proof.
  induction 1 as [h | w images X Hw IH | w images label labels Hw IH | w h Hw IH];
    cbn [obj]; intros Hu.
  - reflexivity.
  - pose proof (train_completes_or_keeps self images X w) as H.
    destruct (snd (EigenfacesServer.Train self images X w)).
    + congruence.
    + unfold training_view in H. injection H as H1 H2.
      rewrite H2. apply IH. congruence.
  - rewrite classify_keeps_obj in *. now apply IH.
  - now apply IH.
Qed.

(** C4: on a server on which no call of [Train] has returned, [Classify]
    raises, whatever the images and the labels, and returns no labels; on a
    server fresh from its initializer the exception is the [AttributeError]
    of the attribute [eigenfaces], which was never assigned, and no oracle
    has been called. *)
Theorem C4_classify_before_train_raises (self : Oracles) (w : world) :
  reachable self w ->
  is_trained (obj w) = false ->
  forall (label : Type) (images : list matrix) (labels : list label),
    (exists e : exn, snd (EigenfacesServer.Classify self images labels w) = Err e)
    /\ (obj w = EigenfacesServer.__init__ ->
        EigenfacesServer.Classify self images labels w = (w, Err AttributeError)).
Proof.
  intros Hw Hu label images labels.
  pose proof (untrained_has_no_projections self w Hw Hu) as Hp.
  split.
  - unfold EigenfacesServer.Classify. unfold bind at 1. unfold getattr at 1.
    destruct (eigenfaces (obj w)) as [Wm |]; [| now exists AttributeError].
    unfold bind at 1. unfold getattr at 1.
    destruct (mean_face (obj w)) as [mu |]; [| now exists AttributeError].
    unfold bind at 1.
    pose proof (keeps_engine obj (_project self images Wm mu)
                  (fun _ _ => eq_refl) w) as Ho.
    destruct (engine (_project self images Wm mu) w) as [w1 [q | e]];
      [| now exists e].
    cbn [fst] in Ho. unfold bind at 1. unfold getattr at 1.
    rewrite Ho, Hp. now exists AttributeError.
  - intros Hinit. unfold EigenfacesServer.Classify, bind, getattr. now rewrite Hinit.
Qed.

Lemma C4_classify_before_train_raises_witness :
  let w := {| obj := EigenfacesServer.__init__; heap := []; calls := [] |} in
  reachable EigenfacesClient.oracles w
  /\ is_trained (obj w) = false
  /\ EigenfacesServer.Classify EigenfacesClient.oracles [[[Enc (Q2Qc 1)]]] [7%nat] w
     = (w, Err AttributeError).
Proof.
  intros w.
  assert (Hw : reachable EigenfacesClient.oracles w) by apply reach_init.
  assert (Hu : is_trained (obj w) = false) by reflexivity.
  split; [exact Hw |]. split; [exact Hu |].
  exact (proj2 (C4_classify_before_train_raises EigenfacesClient.oracles w Hw Hu
                  nat [[[Enc (Q2Qc 1)]]] [7%nat]) eq_refl).
Defined.

(** ** Empty inputs *)

(** C9, as amended: no input is validated.  Zero training images make
    [_vector_mean], and [Train] with it, raise the [ZeroDivisionError] of the
    reciprocal seed of the row count [0], with the model and the arrays
    untouched; an empty list of distances makes the arg-min oracle raise
    NumPy's [ValueError]; the norm of a vector of length zero raises the
    [ZeroDivisionError] of the square root of [0]. *)
Theorem C9_empty_inputs :
  (forall t : trace,
      _vector_mean EigenfacesClient.oracles [] t
      = (t ++ [EvSeed (Plain 0)], Err ZeroDivisionError))
  /\ (forall (images : list matrix) (X : loc) (w : world),
         nth_error (heap w) X = Some [] ->
         EigenfacesServer.Train EigenfacesClient.oracles images X w
         = ({| obj := obj w; heap := heap w;
               calls := calls w ++ [EvSeed (Plain 0)] |},
            Err ZeroDivisionError))
  /\ EigenfacesClient._distance_comparison [] = Err ValueError
  /\ (forall t : trace,
         _norm EigenfacesClient.oracles [] t
         = (t ++ [EvSeed (Plain 0)], Err ZeroDivisionError)).
Proof.
  split; [| split; [| split]].
  - intros t. reflexivity.
  - intros images X w H. unfold EigenfacesServer.Train, bind, load. rewrite H.
    reflexivity.
  - reflexivity.
  - intros t. reflexivity.
Qed.

Lemma C9_empty_inputs_witness :
  let w := {| obj := EigenfacesServer.__init__; heap := [[]]; calls := [] |} in
  nth_error (heap w) 0%nat = Some []
  /\ snd (EigenfacesServer.Train EigenfacesClient.oracles [] 0%nat w) = Err ZeroDivisionError.
Proof.
  intros w.
  assert (H : nth_error (heap w) 0%nat = Some []) by reflexivity.
  split; [exact H |].
  destruct C9_empty_inputs as [_ [HT _]].
  now rewrite (HT [] 0%nat w H).
Defined.

(** The claim fails on a vector of length zero: the mean of one row of no
    entries is returned, empty, without any error. *)
Lemma C9_mean_of_empty_rows_returns :
  _vector_mean EigenfacesClient.oracles [[]] []
  = ([EvSeed (Plain 1)], Ok []).
Proof. same_numbers. Qed.

(** ** [Train] works on the caller's array *)

Lemma keeps_setattr_heap (update : model -> model) : keeps heap (setattr update).
Proof. intros w. reflexivity. Qed.

Lemma nth_error_set_nth {A} (l : list A) (i : nat) (a b : A) :
  nth_error l i = Some b -> nth_error (set_nth l i a) i = Some a.
Proof.
  revert i. induction l as [| c l IH]; intros [| i] H; simpl in *;
    try discriminate; [reflexivity | now apply IH].
Qed.

Lemma mapM_res_length {A B} (f : A -> res B) (l : list A) (l' : list B) :
  mapM_res f l = Ok l' -> length l' = length l.
Proof.
  revert l'. induction l as [| a l IH]; intros l' H; simpl in H.
  - now inversion H.
  - destruct (f a) as [b | e]; [| discriminate].
    destruct (mapM_res f l) as [bs | e]; [| discriminate].
    inversion H; subst. simpl. f_equal. now apply IH.
Qed.

(** The tail of [_pca], after the update of the array, leaves the arrays
    alone. *)
Lemma pca_tail_keeps_heap (self : Oracles) (X : loc) (n d : nat) :
  keeps heap
    (Xv <- load X ;;
     LW <- (if Nat.ltb d n then
              C <- engine (_matrix_mult self (transpose Xv) Xv) ;;
              engine (_pow_eig_comb self C)
            else EigenfacesServer.pca_wide self Xv n) ;;
     k <- engine (call (EvComponents (fst LW)) (determine_components self (fst LW))) ;;
     match k with
     | None => raise TypeError
     | Some k => collect k (fun i => getitem (snd LW) i)
     end).
Proof.
  repeat first
    [ apply pca_wide_keeps_heap
    | match goal with |- keeps _ (if ?b then _ else _) => destruct b end
    | match goal with |- keeps _ (match ?k with Some _ => _ | None => _ end) =>
        destruct k end
    | progress frame ].
Qed.

(** What [_pca] does to the array it is given. *)
Lemma pca_updates_array (self : Oracles) (l : loc) (w : world) (X X' : matrix)
    (mean : vector) :
  nth_error (heap w) l = Some X ->
  mean_face (obj w) = Some mean ->
  subtract_mean X mean = Ok X' ->
  heap (fst (EigenfacesServer._pca self l w)) = set_nth (heap w) l X'.
Proof.
  intros HX Hmean. unfold subtract_mean, EigenfacesServer._pca.
  unfold bind at 1. unfold load at 1. rewrite HX.
  unfold bind at 1. unfold lift at 1.
  destruct (np_shape2 X) as [[n d] | e]; [| discriminate].
  cbn [fst snd]. unfold bind at 1. unfold getattr at 1. rewrite Hmean.
  unfold bind at 1. unfold lift at 1. intros ->.
  unfold bind at 1. unfold store at 1.
  exact (pca_tail_keeps_heap self l n d
           {| obj := obj w; heap := set_nth (heap w) l X'; calls := calls w |}).
Qed.

Lemma pca_raises_before_update (self : Oracles) (l : loc) (w : world) (X : matrix)
    (mean : vector) (e : exn) :
  nth_error (heap w) l = Some X ->
  mean_face (obj w) = Some mean ->
  subtract_mean X mean = Err e ->
  EigenfacesServer._pca self l w = (w, Err e).
Proof.
  intros HX Hmean. unfold subtract_mean, EigenfacesServer._pca.
  unfold bind at 1. unfold load at 1. rewrite HX.
  unfold bind at 1. unfold lift at 1.
  destruct (np_shape2 X) as [[n d] | e']; [| now intros [= ->]].
  cbn [fst snd]. unfold bind at 1. unfold getattr at 1. rewrite Hmean.
  unfold bind at 1. unfold lift at 1. now intros ->.
Qed.

Lemma keeps_setattr_mean_face (update : model -> model) :
  (forall m, mean_face (update m) = mean_face m) ->
  keeps (fun w => mean_face (obj w)) (setattr update).
Proof. intros H w. apply H. Qed.

(** The steps of [Train] after [_pca]. *)
Lemma train_tail_keeps (self : Oracles) (images : list matrix) (eig : matrix) :
  let tail :=
    (_ <- setattr (set_eigenfaces eig) ;;
     Wm <- getattr eigenfaces ;;
     mu <- getattr mean_face ;;
     proj <- engine (_project self images Wm mu) ;;
     _ <- setattr (set_projected_training_images proj) ;;
     setattr (set_is_trained true)) in
  keeps heap tail /\ keeps (fun w => mean_face (obj w)) tail.
Proof.
  split.
  - repeat first [ apply keeps_setattr_heap | progress frame ].
  - repeat first [ apply keeps_setattr_mean_face; intros m; reflexivity
                 | progress frame ].
Qed.

Lemma vector_mean_length (self : Oracles) (X : matrix) (t : trace) (mean : vector) :
  snd (_vector_mean self X t) = Ok mean -> length mean = row_length X.
Proof.
  unfold _vector_mean. cbv zeta. unfold bind at 1. unfold lift at 1.
  destruct (np_sum_axis0 X) as [sums | e]; [| discriminate].
  unfold bind at 1.
  destruct (_goldschmidt_division self one (Plain (of_nat (length X))) t)
    as [t1 [d | e]]; [| discriminate].
  unfold bind at 1. rewrite (returns_getitem X 0 t1).
  destruct X as [| X0 X']; [discriminate |].
  cbn [item nth_error row_length].
  rewrite (returns_collect (length X0) _
             (fun i => si <~ item sums i ;; Ok (nmul si d))) by (intros i; loops).
  cbn [snd]. unfold tabulate. intros H.
  apply mapM_res_length in H. now rewrite H, length_seq.
Qed.

Lemma mapM_res_all_ok {A B} (f : A -> res B) (g : A -> B) (l : list A) :
  (forall a, In a l -> f a = Ok (g a)) -> mapM_res f l = Ok (map g l).
Proof.
  induction l as [| a l IH]; intros H; [reflexivity |].
  simpl. rewrite (H a (or_introl eq_refl)), IH; [reflexivity |].
  intros b Hb. apply H. now right.
Qed.

Lemma subtract_mean_rows (X X' : matrix) (mean : vector) :
  length mean = row_length X ->
  subtract_mean X mean = Ok X' -> X' = rows_minus X mean.
Proof.
  intros Hlen. unfold subtract_mean, np_shape2.
  destruct X as [| X0 Xs]; [discriminate |].
  destruct (rectangular (X0 :: Xs)) eqn:R; [| discriminate].
  unfold np_iadd_rows.
  rewrite (mapM_res_all_ok _
             (fun row => zip_with nadd row (np_scale minus_one mean))).
  - now intros [= <-].
  - intros row Hin.
    assert (Hrow : length row = length X0).
    { destruct Hin as [<- | Hin]; [reflexivity |].
      cbn [rectangular] in R. rewrite forallb_forall in R.
      apply Nat.eqb_eq. now apply R. }
    unfold broadcast_to, np_scale. rewrite length_map, Hlen. cbn [row_length].
    rewrite <- Hrow, Nat.eqb_refl. reflexivity.
Qed.

Lemma train_returns_inv (self : Oracles) (images : list matrix) (l : loc)
    (w w' : world) (X : matrix) :
  nth_error (heap w) l = Some X ->
  EigenfacesServer.Train self images l w = (w', Ok tt) ->
  exists mean : vector,
    snd (_vector_mean self X (calls w)) = Ok mean
    /\ mean_face (obj w') = Some mean
    /\ nth_error (heap w') l = Some (rows_minus X mean).
Proof.
  intros HX HT. unfold EigenfacesServer.Train in HT.
  unfold bind at 1 in HT. unfold load at 1 in HT. rewrite HX in HT.
  unfold bind at 1 in HT. unfold engine at 1 in HT.
  pose proof (vector_mean_length self X (calls w)) as Hlen.
  destruct (_vector_mean self X (calls w)) as [t1 [mean | e]]; [| discriminate HT].
  cbn [snd] in Hlen. specialize (Hlen mean eq_refl).
  unfold bind at 1 in HT. unfold setattr at 1 in HT.
  cbn [obj heap calls] in HT.
  set (w2 := {| obj := set_mean_face mean (obj w); heap := heap w; calls := t1 |}) in HT.
  assert (HX2 : nth_error (heap w2) l = Some X) by exact HX.
  assert (Hm2 : mean_face (obj w2) = Some mean) by reflexivity.
  unfold bind at 1 in HT.
  pose proof (pca_keeps_obj self l w2) as Hobj.
  destruct (subtract_mean X mean) as [X' | e] eqn:Esub.
  - pose proof (pca_updates_array self l w2 X X' mean HX2 Hm2 Esub) as Hheap.
    destruct (EigenfacesServer._pca self l w2) as [w3 [eig | e]];
      [| cbv beta iota in HT; discriminate HT].
    cbn [fst] in Hobj, Hheap.
    destruct (train_tail_keeps self images eig) as [Kh Km].
    cbv zeta in Kh, Km. specialize (Kh w3). specialize (Km w3).
    cbv beta in Km. rewrite HT in Kh, Km. cbn [fst] in Kh, Km.
    exists mean.
    split; [reflexivity |]. split.
    + rewrite Km, Hobj. exact Hm2.
    + rewrite Kh, Hheap. cbn [heap w2].
      rewrite (subtract_mean_rows X X' mean Hlen Esub).
      exact (nth_error_set_nth (heap w) l _ X HX).
  - rewrite (pca_raises_before_update self l w2 X mean e HX2 Hm2 Esub) in HT.
    discriminate HT.
Qed.

(** C10: when [Train] returns, the array the caller passed as
    [vectorized_training_images] no longer holds the images: [_pca] has
    executed [X += -1 * self.mean_face] on it, so that every row is now that
    row minus the mean face the model keeps. *)
Theorem C10_train_mutates_argument (self : Oracles) (images : list matrix)
    (l : loc) (w : world) (X : matrix) :
  nth_error (heap w) l = Some X ->
  snd (EigenfacesServer.Train self images l w) = Ok tt ->
  exists mean : vector,
    snd (_vector_mean self X (calls w)) = Ok mean
    /\ mean_face (obj (fst (EigenfacesServer.Train self images l w))) = Some mean
    /\ nth_error (heap (fst (EigenfacesServer.Train self images l w))) l
       = Some (rows_minus X mean).
Proof.
  intros HX. destruct (EigenfacesServer.Train self images l w) as [w' r] eqn:HT.
  cbn [fst snd]. intros ->.
  exact (train_returns_inv self images l w w' X HX HT).
Qed.

Lemma C10_train_mutates_argument_witness :
  let X := [[Enc (Q2Qc 1)]; [Enc (Q2Qc 1)]; [Enc (Q2Qc 0)]; [Enc (Q2Qc 0)]] in
  let w := {| obj := EigenfacesServer.__init__; heap := [X]; calls := [] |} in
  nth_error (heap w) 0%nat = Some X
  /\ snd (EigenfacesServer.Train EigenfacesClient.oracles [] 0%nat w) = Ok tt
  /\ exists mean : vector,
       nth_error (heap (fst (EigenfacesServer.Train EigenfacesClient.oracles [] 0%nat w))) 0%nat
       = Some (rows_minus X mean).
Proof.
  intros X w.
  assert (H1 : nth_error (heap w) 0%nat = Some X) by reflexivity.
  assert (H2 : snd (EigenfacesServer.Train EigenfacesClient.oracles [] 0%nat w) = Ok tt)
    by (vm_compute; reflexivity).
  split; [exact H1 |]. split; [exact H2 |].
  destruct (C10_train_mutates_argument EigenfacesClient.oracles [] 0%nat w X H1 H2)
    as [mean [_ [_ H]]].
  now exists mean.
Defined.

(** On that training set the array held the pixels [1, 1, 0, 0] before the
    call and holds [1/2, 1/2, -1/2, -1/2] after it. *)
Lemma train_mutates_argument_example :
  let X := [[Enc (Q2Qc 1)]; [Enc (Q2Qc 1)]; [Enc (Q2Qc 0)]; [Enc (Q2Qc 0)]] in
  let w := {| obj := EigenfacesServer.__init__; heap := [X]; calls := [] |} in
  heap (fst (EigenfacesServer.Train EigenfacesClient.oracles [] 0%nat w))
  = [[[Enc (Q2Qc (1 # 2))]; [Enc (Q2Qc (1 # 2))];
      [Enc (Q2Qc (-1 # 2))]; [Enc (Q2Qc (-1 # 2))]]].
Proof. same_numbers. Qed.

(** ** The eigen-decomposition *)







(** *** The deflation on ciphertexts *)

Lemma item_nth {A} (l : list A) (i : nat) (d : A) :
  (i < length l)%nat -> item l i = Ok (nth i l d).
Proof.
  intros H. unfold item. now rewrite (nth_error_nth' l d H).
Qed.

Lemma map_seq_nth {A B} (g : A -> B) (l : list A) (d : A) :
  map (fun i => g (nth i l d)) (seq 0 (length l)) = map g l.
Proof.
  induction l as [| a l IH]; [reflexivity |].
  cbn [length seq map nth]. f_equal.
  rewrite <- seq_shift, map_map. exact IH.
Qed.

Lemma scaled_vector_ok (V : vector) (x : num) :
  scaled_vector V x = Ok (map (fun a => nmul a x) V).
Proof.
  unfold scaled_vector.
  rewrite (tabulate_ok (length V) _ (fun i => nmul (nth i V x) x)).
  - now rewrite (map_seq_nth (fun a => nmul a x) V x).
  - intros i Hi. now rewrite (item_nth V i x Hi).
Qed.


Lemma reencrypt_vec_ciphertexts (u : list Qc) :
  EigenfacesClient._reencrypt_vec (_encrypt_vec u) = Ok (_encrypt_vec u).
Proof. unfold EigenfacesClient._reencrypt_vec. now rewrite decrypt_encrypt_vec. Qed.

Lemma decrypt_encrypt_mat (c : list (list Qc)) : Decrypt (Encrypt c) = Ok c.
Proof.
  unfold Decrypt, Encrypt. induction c as [| r c IH]; [reflexivity |].
  cbn [map mapM_res]. now rewrite decrypt_encrypt_vec, IH.
Qed.

Lemma reencrypt_mat_ciphertexts (c : list (list Qc)) :
  EigenfacesClient._reencrypt_mat (Encrypt c) = Ok (Encrypt c).
Proof. unfold EigenfacesClient._reencrypt_mat. now rewrite decrypt_encrypt_mat. Qed.











(** * Further properties *)

(** ** The key holder: encryption and refresh *)

Lemma decrypt_vec_inv (V : vector) (v : list Qc) :
  _decrypt_vec V = Ok v -> V = _encrypt_vec v.
Proof.
  unfold _decrypt_vec, _encrypt_vec. revert v.
  induction V as [| a V IH]; intros v H; simpl in H.
  - now inversion H.
  - destruct a as [q | q]; [discriminate |].
    destruct (mapM_res _ V) as [qs | e]; [| discriminate].
    inversion H; subst. simpl. f_equal. now apply IH.
Qed.



Lemma decrypt_vec_cases (V : vector) :
  (forallb is_ckks V = true /\ exists v, _decrypt_vec V = Ok v)
  \/ (forallb is_ckks V = false /\ _decrypt_vec V = Err AttributeError).
Proof.
  unfold _decrypt_vec. induction V as [| a V IH].
  - left. split; [reflexivity | now exists []].
  - destruct a as [q | q]; [right; split; reflexivity |].
    cbn [forallb is_ckks andb mapM_res].
    destruct IH as [[F [v E]] | [F E]]; rewrite F, E.
    + left. split; [reflexivity | now exists (q :: v)].
    + right. split; reflexivity.
Qed.



(** ** The key holder: the nearest neighbour *)






(** ** The key holder: the number of components *)

Lemma first_exceeding_bounds (cs : list Qc) (s : Qc) :
  forall i k : nat,
    first_exceeding i cs s = Some k -> (i <= k < i + length cs)%nat.
Proof.
  induction cs as [| c cs IH]; intros i k H; simpl in H; [discriminate |].
  destruct (share_exceeds c s v_threshold).
  - inversion H; subst. simpl. lia.
  - apply IH in H. simpl. lia.
Qed.

Lemma first_exceeding_finds (cs : list Qc) (s : Qc) :
  forall i : nat,
    (exists c, In c cs /\ share_exceeds c s v_threshold = true) ->
    exists k, first_exceeding i cs s = Some k.
Proof.
  induction cs as [| c cs IH]; intros i [c' [Hin Hc']]; [contradiction |].
  simpl. destruct (share_exceeds c s v_threshold) eqn:E; [now exists i |].
  destruct Hin as [-> | Hin]; [congruence |].
  apply IH. now exists c'.
Qed.

Lemma cumsum_from_length (l : list Qc) (acc : Qc) :
  length (cumsum_from acc l) = length l.
Proof. revert acc. induction l as [| x l IH]; intros acc; simpl; [| rewrite IH]; reflexivity. Qed.

Lemma cumsum_from_reaches_total (l : list Qc) :
  forall acc : Qc, l <> [] -> In (fold_left Qcplus l acc) (cumsum_from acc l).
Proof.
  induction l as [| x l IH]; intros acc H; [contradiction |].
  simpl. destruct l as [| y l]; [now left |].
  right. apply IH. discriminate.
Qed.

Lemma whole_share_exceeds (s : Qc) : s <> 0 -> share_exceeds s s v_threshold = true.
Proof.
  intros Hs. unfold share_exceeds.
  destruct (Qc_eq_dec s 0) as [E | _]; [contradiction |].
  replace (s / s) with 1 by (field; exact Hs). reflexivity.
Qed.

(** X4: on encrypted eigenvalues whose sum is not zero the component oracle
    always answers with a number, and that number is smaller than the number
    of eigenvalues: the caller never keeps all of them, and keeps none when
    there is one eigenvalue. *)
Theorem n_components_below_length (L : list Qc) :
  sum_Qc L <> 0 ->
  exists k : nat,
    _n_components_comparison (_encrypt_vec L) = Ok (Some k)
    /\ (k < length L)%nat.
Proof.
  intros Hs. unfold _n_components_comparison. rewrite decrypt_encrypt_vec.
  assert (HL : L <> []) by (intros ->; now apply Hs).
  destruct (first_exceeding_finds (np_cumsum L) (sum_Qc L) 0) as [k Hk].
  - exists (sum_Qc L). split; [| now apply whole_share_exceeds].
    unfold np_cumsum, sum_Qc. now apply cumsum_from_reaches_total.
  - exists k. split; [now rewrite Hk |].
    apply first_exceeding_bounds in Hk.
    unfold np_cumsum in Hk. rewrite cumsum_from_length in Hk. lia.
Qed.

Lemma n_components_below_length_witness :
  sum_Qc [Q2Qc 5] <> 0
  /\ exists k : nat,
       _n_components_comparison (_encrypt_vec [Q2Qc 5]) = Ok (Some k)
       /\ (k < 1)%nat.
Proof.
  assert (H : sum_Qc [Q2Qc 5] <> 0) by discriminate.
  split; [exact H |].
  exact (n_components_below_length [Q2Qc 5] H).
Defined.

(** ** Division in both modes *)











(** ** Square root, norm and distance *)
























Lemma np_sum_enc (l : list Qc) :
  l <> [] -> np_sum (_encrypt_vec l) = Enc (sum_Qc l).
Proof.
  destruct l as [| x l]; [contradiction |]. intros _.
  unfold np_sum, sum_Qc. cbn [_encrypt_vec map fold_left].
  change (nadd (Plain 0) (Enc x)) with (Enc (0 + x)).
  generalize (0 + x). induction l as [| y l IH]; intros acc; [reflexivity |].
  cbn [map fold_left]. apply IH.
Qed.


Lemma zip_with_nonempty {A B C} (f : A -> B -> C) (u : list A) (v : list B) (c : C) :
  In c (zip_with f u v) -> zip_with f u v <> [].
Proof. intros H E. now rewrite E in H. Qed.


(** ** The products on ciphertexts *)
Lemma item_encrypt_vec (v : list Qc) (i : nat) :
  (i < length v)%nat -> item (_encrypt_vec v) i = Ok (Enc (nth i v 0)).
Proof.
  intros H. unfold _encrypt_vec.
  rewrite (item_nth (map Enc v) i (Enc 0)) by now rewrite length_map.
  now rewrite (map_nth Enc v 0 i).
Qed.

Lemma item_Encrypt (a : list (list Qc)) (i : nat) :
  (i < length a)%nat -> item (Encrypt a) i = Ok (_encrypt_vec (nth i a [])).
Proof.
  intros H. unfold Encrypt.
  assert (L : (i < length (map _encrypt_vec a))%nat) by now rewrite length_map.
  pose proof (item_nth (map _encrypt_vec a) i (_encrypt_vec []) L) as E.
  rewrite (map_nth _encrypt_vec a [] i) in E. exact E.
Qed.

Lemma length_encrypt_vec (v : list Qc) : length (_encrypt_vec v) = length v.
Proof. apply length_map. Qed.

Lemma length_Encrypt (a : list (list Qc)) : length (Encrypt a) = length a.
Proof. apply length_map. Qed.

Lemma length_mat_mul (a b : list (list Qc)) : length (mat_mul a b) = length a.
Proof. unfold mat_mul. now rewrite length_map, length_seq. Qed.

Lemma nth_map_seq {A} (f : nat -> A) (n i : nat) (d : A) :
  (i < n)%nat -> nth i (map f (seq 0 n)) d = f i.
Proof.
  intros H.
  assert (E : nth_error (map f (seq 0 n)) i = Some (f i)).
  { rewrite nth_error_map, nth_error_seq.
    destruct (Nat.ltb_spec i n); [reflexivity | lia]. }
  now apply nth_error_nth.
Qed.

Lemma nth_row_length (n : nat) (a : list (list Qc)) (i : nat) :
  Forall (fun row => length row = n) a -> (i < length a)%nat ->
  length (nth i a []) = n.
Proof.
  intros H Hi. rewrite Forall_forall in H. apply H. now apply nth_In.
Qed.

Lemma sigma_ciphertexts (n : nat) (f : nat -> Qc) :
  n <> 0%nat ->
  np_sum (map (fun k => Enc (f k)) (seq 0 n)) = Enc (sigma n f).
Proof.
  intros Hn. rewrite <- (map_map f Enc). fold (_encrypt_vec (map f (seq 0 n))).
  apply np_sum_enc. destruct n; [contradiction | discriminate].
Qed.

Lemma matrix_product_ciphertexts (a b : list (list Qc)) :
  b <> [] ->
  Forall (fun row => length row = length b) a ->
  Forall (fun row => length row = length (nth 0 b [])) b ->
  matrix_product (Encrypt a) (Encrypt b) = Ok (Encrypt (mat_mul a b)).
Proof.
  intros Hb Ha Hrows.
  assert (Hp : length b <> 0%nat) by (destruct b; [contradiction | discriminate]).
  unfold matrix_product. rewrite item_Encrypt by lia. cbn [rbind].
  rewrite !length_Encrypt, length_encrypt_vec.
  rewrite (tabulate_ok (length a) _ (fun i => _encrypt_vec (nth i (mat_mul a b) []))).
  - f_equal. unfold Encrypt.
    rewrite <- (map_seq_nth _encrypt_vec (mat_mul a b) []).
    now rewrite length_mat_mul.
  - intros i Hi.
    rewrite (tabulate_ok (length (nth 0 b [])) _
               (fun j => Enc (sigma (length b) (fun k => entry a i k * entry b k j)))).
    + f_equal. unfold mat_mul. rewrite (nth_map_seq _ (length a) i [] Hi).
      unfold _encrypt_vec. now rewrite map_map.
    + intros j Hj.
      rewrite (tabulate_ok (length b) _
                 (fun k => Enc (entry a i k * entry b k j))).
      * cbn [rbind]. now rewrite sigma_ciphertexts.
      * intros k Hk.
        rewrite (item_Encrypt a i Hi). cbn [rbind].
        rewrite item_encrypt_vec by now rewrite (nth_row_length _ a i Ha Hi).
        cbn [rbind]. rewrite (item_Encrypt b k Hk). cbn [rbind].
        rewrite item_encrypt_vec by now rewrite (nth_row_length _ b k Hrows Hk).
        reflexivity.
Qed.

(** X11: on ciphertext matrices whose shapes agree, [_matrix_mult] returns the
    encryption of the matrix product, after handing it to the re-encryption
    oracle exactly once. *)
Theorem matrix_mult_on_ciphertexts (a b : list (list Qc)) (t : trace) :
  b <> [] ->
  Forall (fun row => length row = length b) a ->
  Forall (fun row => length row = length (nth 0 b [])) b ->
  _matrix_mult EigenfacesClient.oracles (Encrypt a) (Encrypt b) t
  = (t ++ [EvReencrypt (Encrypt (mat_mul a b))], Ok (Encrypt (mat_mul a b))).
Proof.
  intros Hb Ha Hrows.
  rewrite (matrix_mult_refresh EigenfacesClient.oracles (Encrypt a) (Encrypt b) t).
  rewrite (matrix_product_ciphertexts a b Hb Ha Hrows).
  change (reencrypt EigenfacesClient.oracles (Encrypt (mat_mul a b)))
    with (EigenfacesClient._reencrypt_mat (Encrypt (mat_mul a b))).
  now rewrite reencrypt_mat_ciphertexts.
Qed.

Lemma matrix_mult_on_ciphertexts_witness :
  let a := [[Q2Qc 1; Q2Qc 2]; [Q2Qc 3; Q2Qc 4]] in
  let b := [[Q2Qc 0; Q2Qc 1]; [Q2Qc 1; Q2Qc 0]] in
  b <> []
  /\ Forall (fun row => length row = length b) a
  /\ Forall (fun row => length row = length (nth 0 b [])) b
  /\ _matrix_mult EigenfacesClient.oracles (Encrypt a) (Encrypt b) []
     = ([EvReencrypt (Encrypt (mat_mul a b))], Ok (Encrypt (mat_mul a b))).
Proof.
  intros a b.
  assert (Hb : b <> []) by discriminate.
  assert (Ha : Forall (fun row => length row = length b) a)
    by (repeat constructor).
  assert (Hrows : Forall (fun row => length row = length (nth 0 b [])) b)
    by (repeat constructor).
  split; [exact Hb | split; [exact Ha | split; [exact Hrows |]]].
  exact (matrix_mult_on_ciphertexts a b [] Hb Ha Hrows).
Defined.

Lemma nmul_enc_l (a : Qc) (x : num) : nmul (Enc a) x = Enc (a * val x).
Proof. now destruct x. Qed.

Lemma matrix_vector_product_ciphertexts (m : list (list Qc)) (V : vector) :
  m <> [] -> V <> [] ->
  Forall (fun row => length row = length V) m ->
  matrix_vector_product (Encrypt m) V = Ok (_encrypt_vec (mat_vec m (map val V))).
Proof.
  intros Hm HV Hrows.
  assert (Hp : length m <> 0%nat) by (destruct m; [contradiction | discriminate]).
  assert (Hq : length V <> 0%nat) by (destruct V; [contradiction | discriminate]).
  assert (H0 : length (nth 0 m []) = length V)
    by (apply (nth_row_length _ m 0 Hrows); lia).
  unfold matrix_vector_product. rewrite item_Encrypt by lia. cbn [rbind].
  rewrite length_Encrypt, length_encrypt_vec, H0.
  rewrite (tabulate_ok (length m) _
             (fun i => Enc (sigma (length V)
                              (fun j => entry m i j * nth j (map val V) 0)))).
  - f_equal. unfold mat_vec, _encrypt_vec. rewrite H0. now rewrite map_map.
  - intros i Hi.
    rewrite (tabulate_ok (length V) _
               (fun j => Enc (entry m i j * nth j (map val V) 0))).
    + cbn [rbind]. now rewrite sigma_ciphertexts.
    + intros j Hj.
      rewrite (item_Encrypt m i Hi). cbn [rbind].
      rewrite item_encrypt_vec by now rewrite (nth_row_length _ m i Hrows Hi).
      cbn [rbind]. rewrite (item_nth V j (Plain 0) Hj). cbn [rbind].
      rewrite nmul_enc_l. unfold entry.
      now rewrite <- (map_nth val V (Plain 0) j).
Qed.

(** X12: [_mat_vec_mult] of a ciphertext matrix and a vector of as many
    entries as the matrix has columns, ciphertexts or not, returns the
    encrypted matrix-vector product after one call of the vector
    re-encryption oracle. *)
Theorem mat_vec_mult_on_ciphertexts (m : list (list Qc)) (V : vector) (t : trace) :
  m <> [] -> V <> [] ->
  Forall (fun row => length row = length V) m ->
  let product := _encrypt_vec (mat_vec m (map val V)) in
  _mat_vec_mult EigenfacesClient.oracles (Encrypt m) V t
  = (t ++ [EvReencryptVec product], Ok product).
Proof.
  intros Hm HV Hrows product.
  rewrite (mat_vec_mult_refresh EigenfacesClient.oracles (Encrypt m) V t).
  rewrite (matrix_vector_product_ciphertexts m V Hm HV Hrows). fold product.
  change (reencrypt_vec EigenfacesClient.oracles product)
    with (EigenfacesClient._reencrypt_vec product).
  unfold product. now rewrite reencrypt_vec_ciphertexts.
Qed.

Lemma mat_vec_mult_on_ciphertexts_witness :
  let m := [[Q2Qc 1; Q2Qc 2]; [Q2Qc 3; Q2Qc 4]] in
  let V := [Plain (Q2Qc 1); Enc (Q2Qc 1)] in
  m <> [] /\ V <> []
  /\ Forall (fun row => length row = length V) m
  /\ _mat_vec_mult EigenfacesClient.oracles (Encrypt m) V []
     = ([EvReencryptVec (_encrypt_vec (mat_vec m (map val V)))],
        Ok (_encrypt_vec (mat_vec m (map val V)))).
Proof.
  intros m V.
  assert (Hm : m <> []) by discriminate.
  assert (HV : V <> []) by discriminate.
  assert (Hrows : Forall (fun row => length row = length V) m)
    by (repeat constructor).
  split; [exact Hm | split; [exact HV | split; [exact Hrows |]]].
  exact (mat_vec_mult_on_ciphertexts m V [] Hm HV Hrows).
Defined.

Lemma reencrypt_vec_plaintext (V : vector) :
  forallb is_ckks V = false -> EigenfacesClient._reencrypt_vec V = Err AttributeError.
Proof.
  intros H. unfold EigenfacesClient._reencrypt_vec.
  destruct (decrypt_vec_cases V) as [[E _] | [_ E]]; [congruence |].
  unfold EigenfacesClient._decrypt_vec in *. now rewrite E.
Qed.

Lemma forallb_scaled_plain (V : vector) (x : num) :
  is_ckks x = false ->
  forallb is_ckks (map (fun a => nmul a x) V) = forallb is_ckks V.
Proof.
  intros Hx. induction V as [| a V IH]; [reflexivity |].
  cbn [map forallb]. rewrite IH. f_equal.
  destruct a, x; try discriminate; reflexivity.
Qed.

(** X13: the server's products are for ciphertexts.  When the scalar and one
    entry of the vector are plaintext numbers, [_vec_mult] computes the
    products, hands them to the re-encryption oracle, and the key holder's
    decryption raises [AttributeError]. *)
Theorem vec_mult_plaintext_rejected (V : vector) (x : num) (t : trace) :
  is_ckks x = false ->
  forallb is_ckks V = false ->
  _vec_mult EigenfacesClient.oracles V x t
  = (t ++ [EvReencryptVec (map (fun a => nmul a x) V)], Err AttributeError).
Proof.
  intros Hx HV.
  rewrite (vec_mult_refresh EigenfacesClient.oracles V x t).
  rewrite scaled_vector_ok.
  change (reencrypt_vec EigenfacesClient.oracles (map (fun a => nmul a x) V))
    with (EigenfacesClient._reencrypt_vec (map (fun a => nmul a x) V)).
  rewrite reencrypt_vec_plaintext; [reflexivity |].
  now rewrite forallb_scaled_plain.
Qed.

Lemma vec_mult_plaintext_rejected_witness :
  let V := [Enc (Q2Qc 2); Plain (Q2Qc 3)] in
  let x := Plain (Q2Qc 5) in
  is_ckks x = false /\ forallb is_ckks V = false
  /\ snd (_vec_mult EigenfacesClient.oracles V x []) = Err AttributeError.
Proof.
  intros V x.
  assert (Hx : is_ckks x = false) by reflexivity.
  assert (HV : forallb is_ckks V = false) by reflexivity.
  split; [exact Hx | split; [exact HV |]].
  now rewrite (vec_mult_plaintext_rejected V x [] Hx HV).
Defined.

Lemma matrix_vector_product_no_columns (A : matrix) (V : vector) :
  A <> [] -> nth 0 A [] = [] ->
  matrix_vector_product A V = Ok (map (fun _ => Plain 0) A).
Proof.
  intros HA H0. unfold matrix_vector_product.
  assert (Hp : (0 < length A)%nat)
    by (destruct A; [contradiction | simpl; lia]).
  rewrite (item_nth A 0 [] Hp), H0. cbn [rbind length].
  rewrite (tabulate_ok (length A) _ (fun _ => Plain 0)).
  - f_equal. clear. induction A as [| r A IH]; [reflexivity |].
    cbn [length seq map]. f_equal. rewrite <- seq_shift, map_map. exact IH.
  - intros i Hi. reflexivity.
Qed.

(** X14: a matrix with no columns makes [_mat_vec_mult] fail in the key
    holder: every row sum is NumPy's plaintext [0.0], which has no
    [decrypt]. *)
Theorem mat_vec_mult_no_columns (A : matrix) (V : vector) (t : trace) :
  A <> [] -> nth 0 A [] = [] ->
  _mat_vec_mult EigenfacesClient.oracles A V t
  = (t ++ [EvReencryptVec (map (fun _ => Plain 0) A)], Err AttributeError).
Proof.
  intros HA H0.
  rewrite (mat_vec_mult_refresh EigenfacesClient.oracles A V t).
  rewrite (matrix_vector_product_no_columns A V HA H0).
  change (reencrypt_vec EigenfacesClient.oracles (map (fun _ => Plain 0) A))
    with (EigenfacesClient._reencrypt_vec (map (fun _ => Plain 0) A)).
  rewrite reencrypt_vec_plaintext; [reflexivity |].
  destruct A; [contradiction | reflexivity].
Qed.

Lemma mat_vec_mult_no_columns_witness :
  let A : matrix := [[]; []] in
  A <> [] /\ nth 0 A [] = []
  /\ snd (_mat_vec_mult EigenfacesClient.oracles A [] []) = Err AttributeError.
Proof.
  intros A.
  assert (HA : A <> []) by discriminate.
  assert (H0 : nth 0 A [] = []) by reflexivity.
  split; [exact HA | split; [exact H0 |]].
  now rewrite (mat_vec_mult_no_columns A [] [] HA H0).
Defined.
(** ** The mean of ciphertext rows *)






(** ** Projection, training and classification *)

Lemma bind_ok_inv {St A B} (m : Comp St A) (k : A -> Comp St B) (s s' : St) (b : B) :
  bind m k s = (s', Ok b) ->
  exists (s1 : St) (a : A), m s = (s1, Ok a) /\ k a s1 = (s', Ok b).
Proof.
  unfold bind. destruct (m s) as [s1 [a | e]]; intros H; [| discriminate H].
  now exists s1, a.
Qed.

Lemma engine_ok_inv {A} (m : M A) (w w' : world) (a : A) :
  engine m w = (w', Ok a) ->
  m (calls w) = (calls w', Ok a) /\ obj w' = obj w /\ heap w' = heap w.
Proof.
  unfold engine. destruct (m (calls w)) as [t r]. intros H.
  injection H as <- ->. now repeat split.
Qed.


Lemma tabulate_length {A} (n : nat) (f : nat -> res A) (l : list A) :
  tabulate n f = Ok l -> length l = n.
Proof.
  unfold tabulate. intros H. rewrite (mapM_res_length f (seq 0 n) l H).
  apply length_seq.
Qed.

Lemma encrypt_vec_all_ckks (v : list Qc) : forallb is_ckks (_encrypt_vec v) = true.
Proof. induction v as [| a v IH]; [reflexivity | exact IH]. Qed.

Lemma reencrypt_vec_ok_inv (V V' : vector) :
  EigenfacesClient._reencrypt_vec V = Ok V' -> V' = V /\ forallb is_ckks V = true.
Proof.
  unfold EigenfacesClient._reencrypt_vec.
  destruct (EigenfacesClient._decrypt_vec V) as [v | e] eqn:E; intros H;
    [| discriminate H].
  injection H as <-. apply decrypt_vec_inv in E. subst V.
  split; [reflexivity | apply encrypt_vec_all_ckks].
Qed.

Lemma matrix_vector_product_length (A : matrix) (V P : vector) :
  matrix_vector_product A V = Ok P -> length P = length A.
Proof.
  unfold matrix_vector_product. destruct (item A 0) as [A0 | e]; [| discriminate].
  cbn [rbind]. apply tabulate_length.
Qed.

Lemma mat_vec_mult_returns_inv (A : matrix) (V P : vector) (t t' : trace) :
  _mat_vec_mult EigenfacesClient.oracles A V t = (t', Ok P) ->
  t' = t ++ [EvReencryptVec P]
  /\ length P = length A /\ forallb is_ckks P = true.
Proof.
  rewrite (mat_vec_mult_refresh EigenfacesClient.oracles A V t).
  destruct (matrix_vector_product A V) as [Q | e] eqn:E; intros H;
    [| discriminate H].
  injection H as <- H.
  change (reencrypt_vec EigenfacesClient.oracles Q)
    with (EigenfacesClient._reencrypt_vec Q) in H.
  apply reencrypt_vec_ok_inv in H. destruct H as [-> H].
  split; [reflexivity |]. split; [| exact H].
  exact (matrix_vector_product_length A V Q E).
Qed.

Lemma for_each_traced {A B} (f : A -> M B) (ev : B -> event) (P : B -> Prop) :
  (forall x t t' y, f x t = (t', Ok y) -> t' = t ++ [ev y] /\ P y) ->
  forall (xs : list A) (t t' : trace) (ys : list B),
    for_each xs f t = (t', Ok ys) ->
    length ys = length xs /\ Forall P ys /\ t' = t ++ map ev ys.
Proof.
  intros Hf. induction xs as [| x xs IH]; intros t t' ys H.
  - injection H as <- <-. simpl. now rewrite app_nil_r.
  - cbn [for_each] in H.
    apply bind_ok_inv in H. destruct H as [t1 [y [E1 H]]].
    apply bind_ok_inv in H. destruct H as [t2 [zs [E2 H]]].
    injection H as <- <-.
    destruct (Hf x t t1 y E1) as [-> Py].
    destruct (IH _ _ _ E2) as [L [F ->]].
    split; [simpl; now rewrite L |]. split; [now constructor |].
    simpl. now rewrite <- app_assoc.
Qed.

Lemma for_each_length {St A B} (f : A -> Comp St B) :
  forall (xs : list A) (s s' : St) (ys : list B),
    for_each xs f s = (s', Ok ys) -> length ys = length xs.
Proof.
  induction xs as [| x xs IH]; intros s s' ys H.
  - now injection H as <- <-.
  - cbn [for_each] in H.
    apply bind_ok_inv in H. destruct H as [s1 [y [_ H]]].
    apply bind_ok_inv in H. destruct H as [s2 [zs [E2 H]]].
    injection H as <- <-. simpl. f_equal. exact (IH _ _ _ E2).
Qed.

Lemma for_range_collect_inv {St A} (P : A -> Prop) (f : nat -> Comp St A) :
  (forall i s s' x, f i s = (s', Ok x) -> P x) ->
  forall (n i : nat) (acc : list A) (s s' : St) (l : list A),
    for_range n (fun i acc => x <- f i ;; ret (acc ++ [x])) i acc s = (s', Ok l) ->
    exists xs : list A, l = acc ++ xs /\ length xs = n /\ Forall P xs.
Proof.
  intros Hf. induction n as [| n IH]; intros i acc s s' l H.
  - injection H as <- <-. exists []. now rewrite app_nil_r.
  - cbn [for_range] in H.
    apply bind_ok_inv in H. destruct H as [s1 [acc' [E1 H]]].
    apply bind_ok_inv in E1. destruct E1 as [s0 [x [Ex E1]]].
    injection E1 as <- <-.
    destruct (IH _ _ _ _ _ H) as [xs [-> [L F]]].
    exists (x :: xs). rewrite <- app_assoc. split; [reflexivity |].
    split; [simpl; now rewrite L |].
    constructor; [exact (Hf i s s0 x Ex) | exact F].
Qed.

Lemma collect_inv {St A} (P : A -> Prop) (f : nat -> Comp St A) (n : nat)
    (s s' : St) (l : list A) :
  (forall i s s' x, f i s = (s', Ok x) -> P x) ->
  collect n f s = (s', Ok l) -> length l = n /\ Forall P l.
Proof.
  intros Hf H. unfold collect in H.
  destruct (for_range_collect_inv P f Hf n 0 [] s s' l H) as [xs [-> [L F]]].
  now split.
Qed.

(** X16: when [_project] returns with the key holder's oracles, there is one
    projection for each image, each projection has one ciphertext for each
    row of [W], and the oracle calls made are exactly one re-encryption for
    each image, of the projection that is returned for it. *)
Theorem project_one_refresh_per_image (X : list matrix) (Wm : matrix) (mu : vector)
    (t t' : trace) (p : list vector) :
  _project EigenfacesClient.oracles X Wm mu t = (t', Ok p) ->
  length p = length X
  /\ Forall (fun v => length v = length Wm /\ forallb is_ckks v = true) p
  /\ t' = t ++ map EvReencryptVec p.
Proof.
  unfold _project. cbv zeta.
  apply (for_each_traced _ EvReencryptVec
           (fun v => length v = length Wm /\ forallb is_ckks v = true)).
  intros mat t0 t1 y H.
  apply bind_ok_inv in H. destruct H as [t2 [arg [E H]]].
  unfold lift in E. injection E as <- _.
  exact (mat_vec_mult_returns_inv Wm arg y t0 t1 H).
Qed.

Lemma project_one_refresh_per_image_witness :
  let X := [[[Enc (Q2Qc 1); Enc (Q2Qc 2)]]; [[Enc (Q2Qc 3)]; [Enc (Q2Qc 4)]]] in
  let Wm := [[Enc (Q2Qc 1); Enc (Q2Qc 1)]] in
  let mu := [Enc (Q2Qc 1); Enc (Q2Qc 1)] in
  let run := _project EigenfacesClient.oracles X Wm mu [] in
  run = (fst run, Ok [[Enc (Q2Qc 1)]; [Enc (Q2Qc 5)]])
  /\ fst run = map EvReencryptVec [[Enc (Q2Qc 1)]; [Enc (Q2Qc 5)]].
Proof.
  intros X Wm mu run.
  assert (H : run = (fst run, Ok [[Enc (Q2Qc 1)]; [Enc (Q2Qc 5)]])) by same_numbers.
  split; [exact H |].
  exact (proj2 (proj2 (project_one_refresh_per_image X Wm mu [] (fst run) _ H))).
Defined.

Lemma classify_keeps_heap (self : Oracles) (label : Type) (images : list matrix)
    (labels : list label) :
  keeps heap (EigenfacesServer.Classify self images labels).
Proof. unfold EigenfacesServer.Classify. frame. Qed.

Lemma classify_returns_inv (self : Oracles) (label : Type) (images : list matrix)
    (labels out : list label) (w w' : world) :
  EigenfacesServer.Classify self images labels w = (w', Ok out) ->
  length out = length images /\ Forall (fun l => In l labels) out.
Proof.
  intros H. unfold EigenfacesServer.Classify in H.
  apply bind_ok_inv in H. destruct H as [w1 [Wm [_ H]]].
  apply bind_ok_inv in H. destruct H as [w2 [mu [_ H]]].
  apply bind_ok_inv in H. destruct H as [w3 [q [Eq H]]].
  apply bind_ok_inv in H. destruct H as [w4 [proj [_ H]]].
  apply engine_ok_inv in Eq. destruct Eq as [Eq _].
  unfold _project in Eq. apply for_each_length in Eq. rewrite <- Eq.
  refine (collect_inv (fun l => In l labels) _ (length q) w4 w' out _ H).
  intros i s s' x Hx.
  apply bind_ok_inv in Hx. destruct Hx as [s1 [distances [_ Hx]]].
  apply bind_ok_inv in Hx. destruct Hx as [s2 [index [_ Hx]]].
  unfold getitem in Hx.
  destruct (nth_error labels index) as [l |] eqn:E; [| discriminate Hx].
  injection Hx as _ <-. exact (nth_error_In labels index E).
Qed.

(** X17: when [Classify] returns, it returns one label for each test image,
    every label it returns is an entry of [training_labels], and it has
    assigned no attribute of the server and changed no array. *)
Theorem classify_returns_training_labels (self : Oracles) (label : Type)
    (images : list matrix) (labels out : list label) (w : world) :
  let run := EigenfacesServer.Classify self images labels w in
  snd run = Ok out ->
  length out = length images
  /\ Forall (fun l => In l labels) out
  /\ obj (fst run) = obj w
  /\ heap (fst run) = heap w.
Proof.
  intros run Hout.
  assert (H : run = (fst run, Ok out))
    by (rewrite <- Hout; apply surjective_pairing).
  destruct (classify_returns_inv self label images labels out w (fst run) H)
    as [L F].
  split; [exact L |]. split; [exact F |].
  split; [apply classify_keeps_obj | apply classify_keeps_heap].
Qed.

Lemma classify_returns_training_labels_witness :
  let model :=
    {| is_trained := true;
       eigenfaces := Some [[Enc (Q2Qc 1)]];
       mean_face := Some [Enc (Q2Qc 0)];
       projected_training_images := Some [[Enc (Q2Qc 2)]; [Enc (Q2Qc 0)]] |} in
  let w := {| obj := model; heap := []; calls := [] |} in
  let images := [[[Enc (Q2Qc 1)]]] in
  let run := EigenfacesServer.Classify EigenfacesClient.oracles images [7%nat; 9%nat] w in
  snd run = Ok [7%nat]
  /\ Forall (fun l => In l [7%nat; 9%nat]) [7%nat]
  /\ obj (fst run) = obj w.
Proof.
  intros model w images run.
  assert (H : snd run = Ok [7%nat]) by (vm_compute; reflexivity).
  split; [exact H |].
  destruct (classify_returns_training_labels EigenfacesClient.oracles nat images
              [7%nat; 9%nat] [7%nat] w H) as [_ [F [O _]]].
  split; [exact F | exact O].
Defined.




Lemma keeps_obj_field {A T} (field : model -> T) (m : W A) :
  keeps obj m -> keeps (fun w => field (obj w)) m.
Proof. intros H w. now rewrite H. Qed.

(** X19: [Train] is not atomic.  It assigns [mean_face] before the principal
    component analysis, so a call that raises after the mean was computed
    leaves the new mean face in the model, while [is_trained] and
    [projected_training_images] are as they were before the call. *)
Theorem train_failure_keeps_new_mean_face (self : Oracles) (images : list matrix)
    (l : loc) (w : world) (X : matrix) (mean : vector) (e : exn) :
  let run := EigenfacesServer.Train self images l w in
  nth_error (heap w) l = Some X ->
  snd (_vector_mean self X (calls w)) = Ok mean ->
  snd run = Err e ->
  mean_face (obj (fst run)) = Some mean
  /\ is_trained (obj (fst run)) = is_trained (obj w)
  /\ projected_training_images (obj (fst run)) = projected_training_images (obj w).
Proof.
  intros run HX Hmean Herr. split.
  - unfold run, EigenfacesServer.Train.
    unfold bind at 1. unfold load at 1. rewrite HX.
    unfold bind at 1. unfold engine at 1.
    destruct (_vector_mean self X (calls w)) as [t1 [mean' | e']];
      [| discriminate Hmean].
    cbn [snd] in Hmean. injection Hmean as ->.
    unfold bind at 1. unfold setattr at 1. cbn [obj heap calls].
    set (w2 := {| obj := set_mean_face mean (obj w); heap := heap w; calls := t1 |}).
    assert (K : keeps (fun w => mean_face (obj w))
                  (eig <- EigenfacesServer._pca self l ;;
                   _ <- setattr (set_eigenfaces eig) ;;
                   Wm <- getattr eigenfaces ;;
                   mu <- getattr mean_face ;;
                   proj <- engine (_project self images Wm mu) ;;
                   _ <- setattr (set_projected_training_images proj) ;;
                   setattr (set_is_trained true))).
    { apply keeps_bind.
      - apply keeps_obj_field, pca_keeps_obj.
      - intros eig. exact (proj2 (train_tail_keeps self images eig)). }
    exact (K w2).
  - pose proof (train_completes_or_keeps self images l w) as H.
    fold run in H. rewrite Herr in H. unfold training_view in H.
    now injection H as -> ->.
Qed.

Lemma train_failure_keeps_new_mean_face_witness :
  let X := [[Enc (Q2Qc 1)]; [Enc (Q2Qc 1)]; [Enc (Q2Qc 0)]; [Enc (Q2Qc 0)]] in
  let images := [[[Enc (Q2Qc 1)]]] in
  let mean := [Enc (Q2Qc (1 # 2))] in
  let w := {| obj := EigenfacesServer.__init__; heap := [X]; calls := [] |} in
  let run := EigenfacesServer.Train EigenfacesClient.oracles images 0%nat w in
  nth_error (heap w) 0%nat = Some X
  /\ snd (_vector_mean EigenfacesClient.oracles X (calls w)) = Ok mean
  /\ snd run = Err IndexError
  /\ mean_face (obj (fst run)) = Some mean
  /\ is_trained (obj (fst run)) = false.
Proof.
  intros X images mean w run.
  assert (HX : nth_error (heap w) 0%nat = Some X) by reflexivity.
  assert (Hmean : snd (_vector_mean EigenfacesClient.oracles X (calls w)) = Ok mean)
    by same_numbers.
  assert (Herr : snd run = Err IndexError) by (vm_compute; reflexivity).
  split; [exact HX | split; [exact Hmean | split; [exact Herr |]]].
  destruct (train_failure_keeps_new_mean_face EigenfacesClient.oracles images 0%nat
              w X mean IndexError HX Hmean Herr) as [H1 [H2 _]].
  split; [exact H1 | exact H2].
Defined.

Lemma broadcast_len_error (n m : nat) (e : exn) :
  broadcast_len n m = Err e -> e = ValueError.
Proof.
  unfold broadcast_len.
  destruct (Nat.eqb n m); [discriminate |].
  destruct (Nat.eqb n 1); [discriminate |].
  destruct (Nat.eqb m 1); [discriminate |].
  now intros [= <-].
Qed.

Lemma broadcast_to_error {A} (n : nat) (l : list A) (e : exn) :
  broadcast_to n l = Err e -> e = ValueError.
Proof.
  unfold broadcast_to.
  destruct (Nat.eqb (length l) n); [discriminate |].
  destruct l as [| a [| b l]]; first [discriminate | now intros [= <-]].
Qed.

Lemma np_binop_error (f : num -> num -> num) (u v : vector) (e : exn) :
  np_binop f u v = Err e -> e = ValueError.
Proof.
  unfold np_binop.
  destruct (broadcast_len (length u) (length v)) as [n | e1] eqn:E1.
  - destruct (broadcast_to n u) as [u' | e2] eqn:E2.
    + destruct (broadcast_to n v) as [v' | e3] eqn:E3; [discriminate |].
      intros [= <-]. exact (broadcast_to_error n v e3 E3).
    + destruct (broadcast_to n v); intros [= <-];
        exact (broadcast_to_error n u e2 E2).
  - intros [= <-]. exact (broadcast_len_error _ _ e1 E1).
Qed.

Lemma project_first_image_raises (self : Oracles) (x : matrix) (xs : list matrix)
    (mu : vector) (t : trace) :
  exists e : exn,
    _project self (x :: xs) [] mu t = (t, Err e)
    /\ (e = IndexError \/ e = ValueError).
Proof.
  unfold _project. cbv zeta. cbn [for_each].
  unfold bind at 1. unfold bind at 1. unfold lift at 1.
  destruct (np_add (concat x) (np_scale minus_one mu)) as [arg | e] eqn:E.
  - exists IndexError. split; [reflexivity | now left].
  - exists e. split; [reflexivity |]. right.
    exact (np_binop_error nadd _ _ e E).
Qed.

(** X20: without eigenfaces there is nothing to project onto.  On an empty
    [W] and at least one image, [_project] raises at the first image before
    any oracle is called: [IndexError] from [M[0]] in [_mat_vec_mult], or
    NumPy's [ValueError] when the image and the mean do not broadcast.  A
    component count of zero therefore makes [Train] fail on any images. *)
Theorem project_without_eigenfaces (self : Oracles) (X : list matrix) (mu : vector)
    (t : trace) :
  X <> [] ->
  exists e : exn,
    _project self X [] mu t = (t, Err e) /\ (e = IndexError \/ e = ValueError).
Proof.
  intros HX. destruct X as [| x xs]; [contradiction |].
  apply project_first_image_raises.
Qed.

Lemma project_without_eigenfaces_witness :
  let X := [[[Enc (Q2Qc 1)]]] in
  X <> []
  /\ exists e : exn,
       _project EigenfacesClient.oracles X [] [Enc (Q2Qc 1)] [] = ([], Err e).
Proof.
  intros X.
  assert (HX : X <> []) by discriminate.
  split; [exact HX |].
  destruct (project_without_eigenfaces EigenfacesClient.oracles X [Enc (Q2Qc 1)] [] HX)
    as [e [He _]].
  now exists e.
Defined.

Lemma keeps_if {St T A} (view : St -> T) (b : bool) (m1 m2 : Comp St A) :
  keeps view m1 -> keeps view m2 -> keeps view (if b then m1 else m2).
Proof. now destruct b. Qed.



